(** * FHEBlackjack: a shallow embedding of contracts/FHEBlackjack.sol

    The contract plays Blackjack over encrypted values.  Every encrypted
    value is a ciphertext handle; the contract combines handles with the
    operations of the FHE library (add, comparisons, select) and records in
    the access-control list who may decrypt which handle.

    The embedding keeps three layers apart:
    - [FHE]: ciphertext handles, the plaintext each one encrypts, the
      library operations the contract calls and the access-control list;
    - [Solidity]: results of a call (success, revert with a reason, panic)
      and checked unsigned arithmetic;
    - the contract itself: its storage, one function per external function
      of the source, and transactions with rollback.

    The verdict functions of the game page ([getResultText],
    [getStatusColor]) are embedded next to the contract, to relate what the
    page shows to what the contract settles. *)

From Stdlib Require Import ZArith List Bool String Lia.
Import ListNotations.
Local Open Scope Z_scope.

(** ** Ciphertext handles and the FHE library *)

Module FHE.

(** Modelled from the spec: the FHE library that the contract imports
    ([@fhevm/solidity]) is not among the sources.  The specification
    describes its values as opaque ciphertext handles of a declared width
    that support, without decryption, add, the comparisons, logical or/and
    and a ternary select, and it keeps the disclosure state per ciphertext
    handle.

    A handle is the identifier of a ciphertext.  The library derives the
    handle of a result from the operation and the handles of its operands,
    so equal computations give equal handles; a term over the inputs models
    exactly that.  [HInput] is a ciphertext produced off-chain by a user
    (its identifier and the plaintext it encrypts), [HNull] is the content
    of an unwritten storage slot. *)
Inductive handle : Type :=
| HNull
| HInput (bits id pt : Z)
| HTrivial (bits pt : Z)
| HAdd (bits : Z) (a b : handle)
| HEq (a b : handle)
| HLt (a b : handle)
| HLe (a b : handle)
| HGt (a b : handle)
| HOr (a b : handle)
| HAnd (a b : handle)
| HSelect (c a b : handle).

Definition ebool := handle.
Definition euint8 := handle.
Definition euint32 := handle.

Definition of_bool (b : bool) : Z := if b then 1 else 0.

(** The plaintext behind a handle: what the decryption oracle returns.
    Arithmetic on encrypted integers wraps around at the width of the
    type. *)
Fixpoint decrypt (h : handle) : Z :=
  match h with
  | HNull => 0
  | HInput bits _ pt => pt mod 2 ^ bits
  | HTrivial bits pt => pt mod 2 ^ bits
  | HAdd bits a b => (decrypt a + decrypt b) mod 2 ^ bits
  | HEq a b => of_bool (decrypt a =? decrypt b)
  | HLt a b => of_bool (decrypt a <? decrypt b)
  | HLe a b => of_bool (decrypt a <=? decrypt b)
  | HGt a b => of_bool (decrypt a >? decrypt b)
  | HOr a b => of_bool (negb (decrypt a =? 0) || negb (decrypt b =? 0))
  | HAnd a b => of_bool (negb (decrypt a =? 0) && negb (decrypt b =? 0))
  | HSelect c a b => if decrypt c =? 0 then decrypt b else decrypt a
  end.

Definition asEuint8 (v : Z) : euint8 := HTrivial 8 v.
Definition asEuint32 (v : Z) : euint32 := HTrivial 32 v.
(** The contract only adds into 32-bit sums ([euint32 + euint8] and
    [euint32 + euint32]). *)
Definition add (a b : handle) : euint32 := HAdd 32 a b.
Definition eq (a b : handle) : ebool := HEq a b.
Definition lt (a b : handle) : ebool := HLt a b.
Definition le (a b : handle) : ebool := HLe a b.
Definition gt (a b : handle) : ebool := HGt a b.
Definition or (a b : ebool) : ebool := HOr a b.
Definition and (a b : ebool) : ebool := HAnd a b.
Definition select (c : ebool) (a b : handle) : handle := HSelect c a b.

(** Encrypted inputs arrive as an external handle together with a proof
    listing the ciphertexts it attests. *)
Record external : Type := mkExternal { ext_id : Z; ext_pt : Z }.

Definition external_eqb (x y : external) : bool :=
  (ext_id x =? ext_id y) && (ext_pt x =? ext_pt y).

Definition proof := list external.

(** [fromExternal] checks the input against its proof and returns the
    handle of the input unchanged: the same input gives the same handle. *)
Definition fromExternal (bits : Z) (e : external) (p : proof) : option handle :=
  if existsb (external_eqb e) p
  then Some (HInput bits (ext_id e) (ext_pt e))
  else None.

(** *** Access control *)

Inductive grantee : Type :=
| GThis                 (* the contract itself *)
| GAccount (a : Z)      (* an account, by authenticated request *)
| GPublic.              (* anyone *)

(** The list records every grant ever made, most recent first; the
    library offers no way to withdraw one.  The library also refuses to
    compute on a ciphertext the calling contract has no access to; the
    contract opens to itself every ciphertext it stores (its [allowThis]
    calls), which the list records, and that check is not repeated here. *)
Definition ACL := list (handle * grantee).

Definition allow (h : handle) (a : Z) (l : ACL) : ACL := (h, GAccount a) :: l.
Definition allowThis (h : handle) (l : ACL) : ACL := (h, GThis) :: l.
Definition makePubliclyDecryptable (h : handle) (l : ACL) : ACL := (h, GPublic) :: l.

Definition allowed (l : ACL) (h : handle) (g : grantee) : Prop := In (h, g) l.

End FHE.

Definition handle_eq_dec : forall a b : FHE.handle, {a = b} + {a <> b}.
Proof. decide equality; apply Z.eq_dec. Defined.

Definition grantee_eq_dec : forall a b : FHE.grantee, {a = b} + {a <> b}.
Proof. decide equality; apply Z.eq_dec. Defined.

Definition grant_eq_dec : forall a b : FHE.handle * FHE.grantee, {a = b} + {a <> b}.
Proof. decide equality; [apply grantee_eq_dec | apply handle_eq_dec]. Defined.

Definition isAllowed (l : FHE.ACL) (h : FHE.handle) (g : FHE.grantee) : bool :=
  if in_dec grant_eq_dec (h, g) l then true else false.

(** The three disclosure levels of a ciphertext, for a given owner. *)
Inductive Disclosure : Type := EngineOnly | OwnerDecryptable | Public.

Definition rank (d : Disclosure) : Z :=
  match d with EngineOnly => 0 | OwnerDecryptable => 1 | Public => 2 end.

Definition disclosure (l : FHE.ACL) (owner : Z) (h : FHE.handle) : Disclosure :=
  if isAllowed l h FHE.GPublic then Public
  else if isAllowed l h (FHE.GAccount owner) then OwnerDecryptable
  else EngineOnly.

(** ** Results of a call and checked arithmetic *)

Module Solidity.

Inductive Result (A : Type) : Type :=
| Ok (a : A)
| Revert (reason : string)
| Panic (code : Z).
Arguments Ok {A} a.
Arguments Revert {A} reason.
Arguments Panic {A} code.

Definition bind {A B : Type} (r : Result A) (k : A -> Result B) : Result B :=
  match r with
  | Ok a => k a
  | Revert s => Revert s
  | Panic c => Panic c
  end.

Definition require (c : bool) (reason : string) : Result unit :=
  if c then Ok tt else Revert reason.

Definition MAX_UINT256 : Z := 2 ^ 256 - 1.
Definition MAX_UINT8 : Z := 255.

(** Arithmetic of Solidity 0.8 outside [unchecked]: overflow and
    underflow panic with code 0x11. *)
Definition checked_add (max a b : Z) : Result Z :=
  if a + b <=? max then Ok (a + b) else Panic 17.
Definition checked_sub (a b : Z) : Result Z :=
  if b <=? a then Ok (a - b) else Panic 17.
Definition checked_mul (max a b : Z) : Result Z :=
  if a * b <=? max then Ok (a * b) else Panic 17.

(** Reading a fixed-size array out of bounds panics with code 0x32. *)
Definition index {A : Type} (l : list A) (i : Z) : Result A :=
  match (if 0 <=? i then nth_error l (Z.to_nat i) else None) with
  | Some a => Ok a
  | None => Panic 50
  end.

End Solidity.
Import Solidity.

Notation "x <- c ;; k" := (bind c (fun x => k))
  (at level 61, c at next level, right associativity).
Notation "' p <- c ;; k" := (bind c (fun p => k))
  (at level 61, p pattern, c at next level, right associativity).

(** ** The contract *)

Definition address := Z.

Inductive Phase : Type := PlayerTurn | DealerTurn | GameEnding | Completed.

Definition Phase_eqb (p q : Phase) : bool :=
  match p, q with
  | PlayerTurn, PlayerTurn | DealerTurn, DealerTurn
  | GameEnding, GameEnding | Completed, Completed => true
  | _, _ => false
  end.

Record Game : Type := mkGame {
  player : address;
  betAmount : FHE.euint32;
  plainBetAmount : Z;
  deck : list FHE.euint8;
  deckIndex : Z;
  playerCard1 : FHE.euint8;
  playerCard2 : FHE.euint8;
  dealerCardUp : FHE.euint8;
  dealerHoleCard : FHE.euint8;
  playerSum : FHE.euint32;
  dealerSum : FHE.euint32;
  playerBaseSum : FHE.euint32;
  dealerBaseSum : FHE.euint32;
  playerAceCount : FHE.euint32;
  dealerAceCount : FHE.euint32;
  bustFlag : FHE.euint32;
  winFlag : FHE.euint32;
  continueFlag : FHE.euint32;
  phase : Phase;
  exists_ : bool
}.

(** An unwritten slot of [games]: every field is zero. *)
Definition noGame : Game :=
  mkGame 0 FHE.HNull 0 (repeat FHE.HNull 52) 0
         FHE.HNull FHE.HNull FHE.HNull FHE.HNull
         FHE.HNull FHE.HNull FHE.HNull FHE.HNull FHE.HNull FHE.HNull
         FHE.HNull FHE.HNull FHE.HNull PlayerTurn false.

(** Assignments to single fields of a [Game storage] reference. *)
Definition set_deckIndex (g : Game) (v : Z) : Game :=
  mkGame (player g) (betAmount g) (plainBetAmount g) (deck g) v
         (playerCard1 g) (playerCard2 g) (dealerCardUp g) (dealerHoleCard g)
         (playerSum g) (dealerSum g) (playerBaseSum g) (dealerBaseSum g)
         (playerAceCount g) (dealerAceCount g)
         (bustFlag g) (winFlag g) (continueFlag g) (phase g) (exists_ g).

Definition set_player_totals (g : Game) (base aces sum : FHE.euint32) : Game :=
  mkGame (player g) (betAmount g) (plainBetAmount g) (deck g) (deckIndex g)
         (playerCard1 g) (playerCard2 g) (dealerCardUp g) (dealerHoleCard g)
         sum (dealerSum g) base (dealerBaseSum g)
         aces (dealerAceCount g)
         (bustFlag g) (winFlag g) (continueFlag g) (phase g) (exists_ g).

Definition set_dealer_totals (g : Game) (base aces sum : FHE.euint32) : Game :=
  mkGame (player g) (betAmount g) (plainBetAmount g) (deck g) (deckIndex g)
         (playerCard1 g) (playerCard2 g) (dealerCardUp g) (dealerHoleCard g)
         (playerSum g) sum (playerBaseSum g) base
         (playerAceCount g) aces
         (bustFlag g) (winFlag g) (continueFlag g) (phase g) (exists_ g).

Definition set_bustFlag (g : Game) (v : FHE.euint32) : Game :=
  mkGame (player g) (betAmount g) (plainBetAmount g) (deck g) (deckIndex g)
         (playerCard1 g) (playerCard2 g) (dealerCardUp g) (dealerHoleCard g)
         (playerSum g) (dealerSum g) (playerBaseSum g) (dealerBaseSum g)
         (playerAceCount g) (dealerAceCount g)
         v (winFlag g) (continueFlag g) (phase g) (exists_ g).

Definition set_winFlag (g : Game) (v : FHE.euint32) : Game :=
  mkGame (player g) (betAmount g) (plainBetAmount g) (deck g) (deckIndex g)
         (playerCard1 g) (playerCard2 g) (dealerCardUp g) (dealerHoleCard g)
         (playerSum g) (dealerSum g) (playerBaseSum g) (dealerBaseSum g)
         (playerAceCount g) (dealerAceCount g)
         (bustFlag g) v (continueFlag g) (phase g) (exists_ g).

Definition set_continueFlag (g : Game) (v : FHE.euint32) : Game :=
  mkGame (player g) (betAmount g) (plainBetAmount g) (deck g) (deckIndex g)
         (playerCard1 g) (playerCard2 g) (dealerCardUp g) (dealerHoleCard g)
         (playerSum g) (dealerSum g) (playerBaseSum g) (dealerBaseSum g)
         (playerAceCount g) (dealerAceCount g)
         (bustFlag g) (winFlag g) v (phase g) (exists_ g).

Definition set_phase (g : Game) (v : Phase) : Game :=
  mkGame (player g) (betAmount g) (plainBetAmount g) (deck g) (deckIndex g)
         (playerCard1 g) (playerCard2 g) (dealerCardUp g) (dealerHoleCard g)
         (playerSum g) (dealerSum g) (playerBaseSum g) (dealerBaseSum g)
         (playerAceCount g) (dealerAceCount g)
         (bustFlag g) (winFlag g) (continueFlag g) v (exists_ g).

(** Contract storage, with the ether the contract holds and the
    access-control list of the FHE library. *)
Record World : Type := mkWorld {
  games : Z -> Game;
  nextGameId : Z;
  chipBalances : address -> Z;
  ethBalance : Z;
  acl : FHE.ACL
}.

Definition CHIP_PER_ETH : Z := 10000.
Definition ether : Z := 10 ^ 18.

(** State after the constructor. *)
Definition deployed : World :=
  mkWorld (fun _ => noGame) 1 (fun _ => 0) 0 [].

Definition write_game (m : Z -> Game) (id : Z) (g : Game) : Z -> Game :=
  fun i => if i =? id then g else m i.

Definition write_balance (m : address -> Z) (a : address) (v : Z) : address -> Z :=
  fun i => if i =? a then v else m i.

(** *** Encrypted arithmetic *)

Definition getBlackjackBaseValue (card : FHE.euint8) : FHE.euint32 :=
  let isFaceCard :=
    FHE.or (FHE.eq card (FHE.asEuint8 11))
           (FHE.or (FHE.eq card (FHE.asEuint8 12))
                   (FHE.eq card (FHE.asEuint8 13))) in
  let faceCardValue := FHE.asEuint32 10 in
  let cardAs32 := FHE.add (FHE.asEuint32 0) card in
  FHE.select isFaceCard faceCardValue cardAs32.

Definition calculateBlackjackSum (baseSum aceCount : FHE.euint32) : FHE.euint32 :=
  let hasAce := FHE.gt aceCount (FHE.asEuint32 0) in
  let sumWithSoftAce := FHE.add baseSum (FHE.asEuint32 10) in
  let canUseSoftAce := FHE.le sumWithSoftAce (FHE.asEuint32 21) in
  let shouldAddTen := FHE.and hasAce canUseSoftAce in
  FHE.select shouldAddTen sumWithSoftAce baseSum.

Definition addCardToSum (currentBaseSum currentAceCount : FHE.euint32) (card : FHE.euint8)
  : FHE.euint32 * FHE.euint32 * FHE.euint32 :=
  let baseValue := getBlackjackBaseValue card in
  let newBaseSum := FHE.add currentBaseSum baseValue in
  let isAce := FHE.eq card (FHE.asEuint8 1) in
  let aceIncrement := FHE.select isAce (FHE.asEuint32 1) (FHE.asEuint32 0) in
  let newAceCount := FHE.add currentAceCount aceIncrement in
  let finalSum := calculateBlackjackSum newBaseSum newAceCount in
  (newBaseSum, newAceCount, finalSum).

(** *** Chips *)

Definition buyChips (sender : address) (value : Z) (w : World) : Result World :=
  _ <- require (0 <? value) "Send ETH to buy CHIP" ;;
  scaled <- checked_mul MAX_UINT256 value CHIP_PER_ETH ;;
  let amount := scaled / ether in
  _ <- require (0 <? amount) "Amount too small" ;;
  balance <- checked_add MAX_UINT256 (chipBalances w sender) amount ;;
  Ok (mkWorld (games w) (nextGameId w)
              (write_balance (chipBalances w) sender balance)
              (ethBalance w + value) (acl w)).

(** [transferOk] is the answer of the receiving account to the ether
    transfer.  A receiver that calls back into the contract does so after
    the balance was written, so its calls are further transactions on the
    state returned here. *)
Definition sellChips (sender : address) (chipAmount : Z) (transferOk : bool) (w : World)
  : Result World :=
  _ <- require (0 <? chipAmount) "Zero amount" ;;
  _ <- require (chipAmount <=? chipBalances w sender) "Insufficient CHIP balance" ;;
  scaled <- checked_mul MAX_UINT256 chipAmount ether ;;
  let ethAmount := scaled / CHIP_PER_ETH in
  _ <- require (0 <? ethAmount) "Amount too small" ;;
  _ <- require (ethAmount <=? ethBalance w) "Casino lacks ETH" ;;
  balance <- checked_sub (chipBalances w sender) chipAmount ;;
  _ <- require transferOk "ETH transfer failed" ;;
  Ok (mkWorld (games w) (nextGameId w)
              (write_balance (chipBalances w) sender balance)
              (ethBalance w - ethAmount) (acl w)).

Definition receive (value : Z) (w : World) : Result World :=
  Ok (mkWorld (games w) (nextGameId w) (chipBalances w) (ethBalance w + value) (acl w)).

(** *** Game logic *)

Definition verified (o : option FHE.handle) : Result FHE.handle :=
  match o with
  | Some h => Ok h
  | None => Revert "InvalidInputProof"
  end.

(** The loop of [startGame] over the 52 positions of the submitted deck,
    [n] positions from index [i] on: each card is checked against the
    attestation, stored, and opened to the contract. *)
Fixpoint loadDeck (encDeck : Z -> FHE.external) (attestation : FHE.proof)
         (i : Z) (n : nat) (l : FHE.ACL) : Result (list FHE.euint8 * FHE.ACL) :=
  match n with
  | O => Ok ([], l)
  | S n' =>
      c <- verified (FHE.fromExternal 8 (encDeck i) attestation) ;;
      ' (cs, l') <- loadDeck encDeck attestation (i + 1) n' (FHE.allowThis c l) ;;
      Ok (c :: cs, l')
  end.

Definition startGame (sender : address)
           (encDeck : Z -> FHE.external) (attestation : FHE.proof)
           (encryptedBet : FHE.external) (betProof : FHE.proof)
           (plainBet : Z) (w : World) : Result (Z * World) :=
  _ <- require (0 <? plainBet) "Bet required" ;;
  _ <- require (plainBet <=? chipBalances w sender) "Insufficient CHIP balance" ;;
  balance <- checked_sub (chipBalances w sender) plainBet ;;
  betAmount <- verified (FHE.fromExternal 32 encryptedBet betProof) ;;
  let l := FHE.allowThis betAmount (acl w) in
  let gameId := nextGameId w in
  next <- checked_add MAX_UINT256 (nextGameId w) 1 ;;
  ' (deck, l) <- loadDeck encDeck attestation 0 52 l ;;
  let playerCard1 := nth 0 deck FHE.HNull in
  let playerCard2 := nth 1 deck FHE.HNull in
  let dealerCardUp := nth 2 deck FHE.HNull in
  let dealerHoleCard := nth 3 deck FHE.HNull in
  let playerBaseSum := FHE.asEuint32 0 in
  let dealerBaseSum := FHE.asEuint32 0 in
  let playerAceCount := FHE.asEuint32 0 in
  let dealerAceCount := FHE.asEuint32 0 in
  let '(playerBaseSum, playerAceCount, playerSum) :=
    addCardToSum playerBaseSum playerAceCount playerCard1 in
  let '(playerBaseSum, playerAceCount, playerSum) :=
    addCardToSum playerBaseSum playerAceCount playerCard2 in
  let '(dealerBaseSum, dealerAceCount, dealerSum) :=
    addCardToSum dealerBaseSum dealerAceCount dealerCardUp in
  let l := FHE.allowThis playerBaseSum l in
  let l := FHE.allowThis playerAceCount l in
  let l := FHE.allowThis dealerBaseSum l in
  let l := FHE.allowThis dealerAceCount l in
  let l := FHE.allow playerCard1 sender l in
  let l := FHE.allowThis playerCard1 l in
  let l := FHE.allow playerCard2 sender l in
  let l := FHE.allowThis playerCard2 l in
  let l := FHE.allow playerSum sender l in
  let l := FHE.allowThis playerSum l in
  let l := FHE.allow dealerSum sender l in
  let l := FHE.allowThis dealerSum l in
  let l := FHE.makePubliclyDecryptable dealerCardUp l in
  let g := mkGame sender betAmount plainBet deck 4
                  playerCard1 playerCard2 dealerCardUp dealerHoleCard
                  playerSum dealerSum playerBaseSum dealerBaseSum
                  playerAceCount dealerAceCount
                  (FHE.asEuint32 0) (FHE.asEuint32 0) (FHE.asEuint32 0)
                  PlayerTurn true in
  Ok (gameId,
      mkWorld (write_game (games w) gameId g) next
              (write_balance (chipBalances w) sender balance)
              (ethBalance w) l).

Definition store (w : World) (gameId : Z) (g : Game) (l : FHE.ACL) : World :=
  mkWorld (write_game (games w) gameId g) (nextGameId w)
          (chipBalances w) (ethBalance w) l.

Definition hit (sender : address) (gameId : Z) (w : World) : Result World :=
  let g := games w gameId in
  _ <- require (exists_ g && (player g =? sender)) "invalid player" ;;
  _ <- require (Phase_eqb (phase g) PlayerTurn) "wrong phase" ;;
  _ <- require (deckIndex g <? 52) "deck empty" ;;
  newCard <- index (deck g) (deckIndex g) ;;
  next <- checked_add MAX_UINT8 (deckIndex g) 1 ;;
  let g := set_deckIndex g next in
  let '(base, aces, sum) :=
    addCardToSum (playerBaseSum g) (playerAceCount g) newCard in
  let g := set_player_totals g base aces sum in
  let l := FHE.allowThis (playerBaseSum g) (acl w) in
  let l := FHE.allowThis (playerAceCount g) l in
  let l := FHE.allow newCard (player g) l in
  let l := FHE.allow (playerSum g) (player g) l in
  let l := FHE.allowThis (playerSum g) l in
  let g := set_bustFlag g
             (FHE.select (FHE.gt (playerSum g) (FHE.asEuint32 21))
                         (FHE.asEuint32 1) (FHE.asEuint32 0)) in
  let l := FHE.makePubliclyDecryptable (bustFlag g) l in
  Ok (store w gameId g l).

Definition stand (sender : address) (gameId : Z) (w : World) : Result World :=
  let g := games w gameId in
  _ <- require (exists_ g && (player g =? sender)) "invalid player" ;;
  _ <- require (Phase_eqb (phase g) PlayerTurn) "wrong phase" ;;
  let '(base, aces, sum) :=
    addCardToSum (dealerBaseSum g) (dealerAceCount g) (dealerHoleCard g) in
  let g := set_dealer_totals g base aces sum in
  let l := FHE.allowThis (dealerBaseSum g) (acl w) in
  let l := FHE.allowThis (dealerAceCount g) l in
  let l := FHE.allow (dealerSum g) (player g) l in
  let l := FHE.allowThis (dealerSum g) l in
  let l := FHE.makePubliclyDecryptable (dealerSum g) l in
  let g := set_continueFlag g
             (FHE.select (FHE.lt (dealerSum g) (FHE.asEuint32 17))
                         (FHE.asEuint32 1) (FHE.asEuint32 0)) in
  let l := FHE.makePubliclyDecryptable (continueFlag g) l in
  let g := set_phase g DealerTurn in
  let l := FHE.allowThis (dealerHoleCard g) l in
  Ok (store w gameId g l).

Definition dealerHit (gameId : Z) (w : World) : Result World :=
  let g := games w gameId in
  _ <- require (exists_ g && Phase_eqb (phase g) DealerTurn) "invalid state" ;;
  _ <- require (deckIndex g <? 52) "deck empty" ;;
  let g := set_continueFlag g
             (FHE.select (FHE.lt (dealerSum g) (FHE.asEuint32 17))
                         (FHE.asEuint32 1) (FHE.asEuint32 0)) in
  let l := FHE.makePubliclyDecryptable (continueFlag g) (acl w) in
  let l := FHE.makePubliclyDecryptable (dealerSum g) l in
  c <- index (deck g) (deckIndex g) ;;
  next <- checked_add MAX_UINT8 (deckIndex g) 1 ;;
  let g := set_deckIndex g next in
  let '(newBaseSum, newAceCount, sumAfterCard) :=
    addCardToSum (dealerBaseSum g) (dealerAceCount g) c in
  let shouldAddCard := FHE.lt (dealerSum g) (FHE.asEuint32 17) in
  let g := set_dealer_totals g
             (FHE.select shouldAddCard newBaseSum (dealerBaseSum g))
             (FHE.select shouldAddCard newAceCount (dealerAceCount g))
             (FHE.select shouldAddCard sumAfterCard (dealerSum g)) in
  let l := FHE.allowThis (dealerBaseSum g) l in
  let l := FHE.allowThis (dealerAceCount g) l in
  let l := FHE.allow (dealerSum g) (player g) l in
  let l := FHE.allowThis (dealerSum g) l in
  let l := FHE.makePubliclyDecryptable c l in
  Ok (store w gameId g l).

Definition setBustPhase (sender : address) (gameId : Z) (w : World) : Result World :=
  let g := games w gameId in
  _ <- require (exists_ g && (player g =? sender)) "invalid player" ;;
  _ <- require (Phase_eqb (phase g) PlayerTurn) "wrong phase" ;;
  Ok (store w gameId (set_phase g GameEnding) (acl w)).

Definition endGame (gameId : Z) (w : World) : Result World :=
  let g := games w gameId in
  _ <- require (exists_ g &&
                (Phase_eqb (phase g) GameEnding || Phase_eqb (phase g) DealerTurn))
               "invalid state" ;;
  let l := FHE.makePubliclyDecryptable (playerCard1 g) (acl w) in
  let l := FHE.makePubliclyDecryptable (playerCard2 g) l in
  let l := FHE.allow (dealerHoleCard g) (player g) l in
  let l := FHE.makePubliclyDecryptable (dealerHoleCard g) l in
  let g := set_winFlag g
             (FHE.select (FHE.or (FHE.gt (playerSum g) (dealerSum g))
                                 (FHE.gt (dealerSum g) (FHE.asEuint32 21)))
                         (FHE.asEuint32 1) (FHE.asEuint32 0)) in
  let l := FHE.makePubliclyDecryptable (winFlag g) l in
  let g := set_phase g Completed in
  Ok (store w gameId g l).

Definition payoutWinner (sender : address) (gameId : Z) (playerWon : bool) (w : World)
  : Result World :=
  let g := games w gameId in
  _ <- require (exists_ g) "no game" ;;
  _ <- require (Phase_eqb (phase g) Completed) "not finished" ;;
  _ <- require (player g =? sender) "only player can claim" ;;
  if playerWon then
    reward <- checked_mul MAX_UINT256 (plainBetAmount g) 2 ;;
    balance <- checked_add MAX_UINT256 (chipBalances w (player g)) reward ;;
    Ok (mkWorld (games w) (nextGameId w)
                (write_balance (chipBalances w) (player g) balance)
                (ethBalance w) (acl w))
  else Ok w.

(** *** Transactions *)

Inductive Call : Type :=
| BuyChips (value : Z)
| SellChips (chipAmount : Z) (transferOk : bool)
| Receive (value : Z)
| StartGame (encDeck : Z -> FHE.external) (attestation : FHE.proof)
            (encryptedBet : FHE.external) (betProof : FHE.proof) (plainBet : Z)
| Hit (gameId : Z)
| Stand (gameId : Z)
| DealerHit (gameId : Z)
| SetBustPhase (gameId : Z)
| EndGame (gameId : Z)
| PayoutWinner (gameId : Z) (playerWon : bool).

Definition exec (sender : address) (c : Call) (w : World) : Result World :=
  match c with
  | BuyChips value => buyChips sender value w
  | SellChips chipAmount transferOk => sellChips sender chipAmount transferOk w
  | Receive value => receive value w
  | StartGame encDeck attestation encryptedBet betProof plainBet =>
      ' (_, w') <- startGame sender encDeck attestation encryptedBet betProof plainBet w ;;
      Ok w'
  | Hit gameId => hit sender gameId w
  | Stand gameId => stand sender gameId w
  | DealerHit gameId => dealerHit gameId w
  | SetBustPhase gameId => setBustPhase sender gameId w
  | EndGame gameId => endGame gameId w
  | PayoutWinner gameId playerWon => payoutWinner sender gameId playerWon w
  end.

(** A transaction that reverts or panics leaves the state as it was. *)
Definition step (w : World) (tx : address * Call) : World :=
  match exec (fst tx) (snd tx) w with
  | Ok w' => w'
  | _ => w
  end.

Definition run (w : World) (txs : list (address * Call)) : World :=
  fold_left step txs w.

Inductive reachable : World -> Prop :=
| reachable_deployed : reachable deployed
| reachable_step w tx : reachable w -> reachable (step w tx).

(** ** Well-formed states

    What every state reachable from deployment satisfies. *)

(** The handle of an 8-bit encrypted input: the only handles a deck holds. *)
Definition is_card (h : FHE.handle) : bool :=
  match h with
  | FHE.HInput bits _ _ => bits =? 8
  | _ => false
  end.

Definition is_input (h : FHE.handle) : bool :=
  match h with
  | FHE.HInput _ _ _ => true
  | _ => false
  end.

Record game_inv (g : Game) : Prop := mk_game_inv {
  inv_wager : 0 < plainBetAmount g;
  inv_index : 4 <= deckIndex g <= 52;
  inv_deck_length : List.length (deck g) = 52%nat;
  inv_deck_cards : forall c, In c (deck g) -> is_card c = true;
  inv_card1 : playerCard1 g = nth 0 (deck g) FHE.HNull;
  inv_card2 : playerCard2 g = nth 1 (deck g) FHE.HNull;
  inv_cardUp : dealerCardUp g = nth 2 (deck g) FHE.HNull;
  inv_holeCard : dealerHoleCard g = nth 3 (deck g) FHE.HNull;
  inv_playerSum :
    FHE.decrypt (playerSum g) =
    FHE.decrypt (calculateBlackjackSum (playerBaseSum g) (playerAceCount g));
  inv_playerBaseSum : 0 <= FHE.decrypt (playerBaseSum g) <= 255 * deckIndex g;
  inv_bustFlag : FHE.decrypt (bustFlag g) = 1 -> 21 < FHE.decrypt (playerSum g);
  inv_dealerSum : is_input (dealerSum g) = false
}.

Record world_inv (w : World) : Prop := mk_world_inv {
  inv_next : 1 <= nextGameId w;
  inv_fresh : forall id, exists_ (games w id) = true -> id < nextGameId w;
  inv_games : forall id, exists_ (games w id) = true -> game_inv (games w id);
  inv_unwritten : forall id, exists_ (games w id) = false -> games w id = noGame;
  inv_balances : forall a, 0 <= chipBalances w a
}.

(** The deck [startGame] stores: position [i] holds the handle of the
    [i]-th submitted input. *)
Definition inputCard (encDeck : Z -> FHE.external) (i : Z) : FHE.euint8 :=
  FHE.HInput 8 (FHE.ext_id (encDeck i)) (FHE.ext_pt (encDeck i)).

Definition loadedDeck (encDeck : Z -> FHE.external) : list FHE.euint8 :=
  map (fun k => inputCard encDeck (Z.of_nat k)) (seq 0 52).
Arguments loadedDeck : simpl never.

(** ** A sample round

    Alice buys 1000 chips, bets 100 of them on a deck whose position [i]
    encrypts [i mod 13 + 1], draws once and stands. *)

Definition alice : address := 7.
Definition bob : address := 8.

Definition sampleDeck : Z -> FHE.external :=
  fun i => FHE.mkExternal i (i mod 13 + 1).

Definition sampleAttestation : FHE.proof :=
  map (fun k => sampleDeck (Z.of_nat k)) (seq 0 52).

Definition sampleBet : FHE.external := FHE.mkExternal 52 100.

Definition funded : World := step deployed (alice, BuyChips (10 ^ 17)).

Definition sampleStart : Call :=
  StartGame sampleDeck sampleAttestation sampleBet [sampleBet] 100.

Definition dealt : World := step funded (alice, sampleStart).

Definition dealerTurn : World := run dealt [(alice, Hit 1); (alice, Stand 1)].

Definition settled : World := run dealerTurn [(bob, DealerHit 1); (bob, EndGame 1)].

Definition busted : World :=
  run dealt [(alice, Hit 1); (alice, Hit 1); (alice, Hit 1); (alice, Hit 1)].

(** ** Disclosure of the hole card *)

(** Grants that let somebody read the plaintext: to an account or to
    everyone.  A grant to the contract itself only lets it compute. *)
Definition discloses (g : FHE.grantee) : bool :=
  match g with FHE.GThis => false | _ => true end.

(** The ciphertext [h] is stored at no card position of any started hand,
    except possibly position 3 (the hole card) of hand [gid]. *)
Definition exclusive (w : World) (gid : Z) (h : FHE.handle) : Prop :=
  forall id i,
    exists_ (games w id) = true ->
    nth_error (deck (games w id)) i = Some h ->
    id = gid /\ i = 3%nat.

(** Calls other than settling hand [gid] and other than starting a hand on
    a deck that contains the ciphertext [h]. *)
Definition keeps_hidden (gid : Z) (h : FHE.handle) (c : Call) : Prop :=
  match c with
  | EndGame id => id <> gid
  | StartGame encDeck _ _ _ _ => forall i, 0 <= i < 52 -> inputCard encDeck i <> h
  | _ => True
  end.

(** The ciphertext [h] sits at a card position the contract has opened: a
    position of a started hand already dealt or drawn, other than the hole
    card's, or the hole card's position of a settled hand. *)
Definition opened (w : World) (h : FHE.handle) : Prop :=
  exists id i,
    exists_ (games w id) = true /\
    nth_error (deck (games w id)) i = Some h /\
    ((Z.of_nat i < deckIndex (games w id) /\ i <> 3%nat) \/
     (i = 3%nat /\ phase (games w id) = Completed)).



(** The sample deck with the ciphertext of position 3 submitted again at
    position 4, the first card to be drawn. *)
Definition reusedDeck : Z -> FHE.external :=
  fun i => if i =? 4 then sampleDeck 3 else sampleDeck i.

Definition dealtReused : World :=
  step funded (alice, StartGame reusedDeck sampleAttestation sampleBet [sampleBet] 100).

(** ** Precondition failures *)







(** The functions that play a hand, as opposed to those that move chips. *)
Definition game_op (c : Call) : bool :=
  match c with
  | Hit _ | Stand _ | DealerHit _ | SetBustPhase _ | EndGame _ => true
  | _ => false
  end.

(** [payoutWinner] takes the caller's word for the outcome and can be
    called again on the same hand.  Betting the whole balance, giving the
    hand up and claiming twice multiplies the balance by four. *)
Fixpoint doubling (rounds : nat) (gid bet : Z) : list (address * Call) :=
  match rounds with
  | O => []
  | S n =>
      [(alice, StartGame sampleDeck sampleAttestation sampleBet [sampleBet] bet);
       (alice, SetBustPhase gid); (bob, EndGame gid);
       (alice, PayoutWinner gid true); (alice, PayoutWinner gid true)]
      ++ doubling n (gid + 1) (4 * bet)
  end.

(** Alice after buying 10000 chips and 121 such rounds. *)
Definition whale : World :=
  run (step deployed (alice, BuyChips ether)) (doubling 121 1 10000).

Definition is_start (c : Call) : bool :=
  match c with StartGame _ _ _ _ _ => true | _ => false end.


Definition phase_rank (p : Phase) : Z :=
  match p with PlayerTurn => 0 | DealerTurn => 1 | GameEnding => 2 | Completed => 3 end.

(** Until the player stands the dealer's totals are those of the up card
    alone, as [startGame] computed them. *)
Definition dealer_waits (g : Game) : Prop :=
  phase g = PlayerTurn \/ phase g = GameEnding ->
  (dealerBaseSum g, dealerAceCount g, dealerSum g) =
  addCardToSum (FHE.asEuint32 0) (FHE.asEuint32 0) (dealerCardUp g).

(** The blackjack total of a hand of one or two cards with the codes
    [up] and [hole]: face cards count 10, an ace 11 unless that exceeds 21. *)
Definition cardScore (code : Z) : Z :=
  if (code =? 11) || (code =? 12) || (code =? 13) then 10 else code.

Definition upCardTotal (up : Z) : Z :=
  if up =? 1 then 11 else cardScore up.

Definition twoCardTotal (up hole : Z) : Z :=
  let b := cardScore up + cardScore hole in
  if ((up =? 1) || (hole =? 1)) && (b + 10 <=? 21) then b + 10 else b.

(** The score of the hole card, from the dealer's total after [stand] and
    the code of the up card. *)
Definition holeScoreFrom (total up : Z) : Z :=
  if up =? 1 then total - 11
  else if total - cardScore up =? 11 then 1
  else total - cardScore up.

(** Alice bets her 1000 chips, gives the hand up and claims twice. *)
Definition unbacked : World :=
  run funded
      [(alice, StartGame sampleDeck sampleAttestation sampleBet [sampleBet] 1000);
       (alice, SetBustPhase 1); (bob, EndGame 1);
       (alice, PayoutWinner 1 true); (alice, PayoutWinner 1 true)].

(** ** The front end's verdict *)

(** The game page shows the outcome of a settled hand from the decrypted
    win flag and sums ([number | null], here [option Z]: the values are
    decrypted integers), and claims the payout when the win flag is 1. *)

Definition notNull (x : option Z) : bool :=
  match x with Some _ => true | None => false end.

(** [x > n], [x < y] and [x === y] on numbers, where the operands are known
    not to be null. *)
Definition numAbove (x : option Z) (n : Z) : bool :=
  match x with Some v => v >? n | None => false end.

Definition numIs (x : option Z) (n : Z) : bool :=
  match x with Some v => v =? n | None => false end.

Definition numGreater (x y : option Z) : bool :=
  match x, y with Some p, Some d => p >? d | _, _ => false end.

Definition numSame (x y : option Z) : bool :=
  match x, y with Some p, Some d => p =? d | _, _ => false end.

Definition getStatusColor (result playerSum dealerSum : option Z) (isDecrypting : bool)
  : string :=
  if isDecrypting then "text-slate-400"
  else if notNull playerSum && numAbove playerSum 21 then "text-rose-400"
  else if notNull dealerSum && numAbove dealerSum 21 then "text-emerald-400"
  else if numIs result 1 then "text-emerald-400"
  else if numIs result 0 then "text-rose-400"
  else if notNull playerSum && notNull dealerSum && numSame playerSum dealerSum
       then "text-amber-400"
  else "text-amber-400".

Definition getResultText (winFlag playerSum dealerSum : option Z) (isDecrypting : bool)
  : string :=
  if isDecrypting then "Processing..."
  else if notNull playerSum && numAbove playerSum 21 then "You Lose"
  else if notNull dealerSum && numAbove dealerSum 21 then "You Win"
  else if numIs winFlag 1 then "You Win"
  else if numIs winFlag 0 then "You Lose"
  else if notNull playerSum && notNull dealerSum && numGreater playerSum dealerSum
       then "You Win"
  else if notNull playerSum && notNull dealerSum && numGreater dealerSum playerSum
       then "You Lose"
  else if notNull playerSum && notNull dealerSum && numSame playerSum dealerSum
       then "Push"
  else if notNull playerSum || notNull dealerSum then "Processing..."
  else "Game Over".

(** [const playerWon = winFlag === 1], the argument of the payout claim. *)
Definition playerWon (winFlag : option Z) : bool := numIs winFlag 1.

(** ** Encrypted arithmetic: what the results decrypt to *)

Section Arithmetic.

Implicit Types (baseSum aceCount : FHE.euint32) (card : FHE.euint8).

Lemma decrypt_getBlackjackBaseValue card :
  FHE.decrypt (getBlackjackBaseValue card) =
  if (FHE.decrypt card =? 11) || (FHE.decrypt card =? 12) || (FHE.decrypt card =? 13)
  then 10 else FHE.decrypt card mod 2 ^ 32.
Proof.
  unfold getBlackjackBaseValue; cbn [FHE.decrypt FHE.select FHE.or FHE.eq FHE.add
                                      FHE.asEuint8 FHE.asEuint32].
  change (11 mod 2 ^ 8) with 11; change (12 mod 2 ^ 8) with 12;
    change (13 mod 2 ^ 8) with 13; change (10 mod 2 ^ 32) with 10;
    change (0 mod 2 ^ 32) with 0.
  destruct (FHE.decrypt card =? 11), (FHE.decrypt card =? 12),
           (FHE.decrypt card =? 13); reflexivity.
Qed.

Lemma decrypt_calculateBlackjackSum baseSum aceCount :
  FHE.decrypt (calculateBlackjackSum baseSum aceCount) =
  if (0 <? FHE.decrypt aceCount) && ((FHE.decrypt baseSum + 10) mod 2 ^ 32 <=? 21)
  then (FHE.decrypt baseSum + 10) mod 2 ^ 32
  else FHE.decrypt baseSum.
Proof.
  unfold calculateBlackjackSum; cbn [FHE.decrypt FHE.select FHE.and FHE.gt FHE.le
                                      FHE.add FHE.asEuint32].
  change (0 mod 2 ^ 32) with 0; change (10 mod 2 ^ 32) with 10;
    change (21 mod 2 ^ 32) with 21.
  rewrite Z.gtb_ltb.
  destruct (0 <? FHE.decrypt aceCount),
           ((FHE.decrypt baseSum + 10) mod 2 ^ 32 <=? 21); reflexivity.
Qed.

Lemma decrypt_aceIncrement card :
  FHE.decrypt (FHE.select (FHE.eq card (FHE.asEuint8 1))
                          (FHE.asEuint32 1) (FHE.asEuint32 0)) =
  if FHE.decrypt card =? 1 then 1 else 0.
Proof.
  cbn [FHE.decrypt FHE.select FHE.eq FHE.asEuint8 FHE.asEuint32].
  change (1 mod 2 ^ 8) with 1; change (1 mod 2 ^ 32) with 1;
    change (0 mod 2 ^ 32) with 0.
  destruct (FHE.decrypt card =? 1); reflexivity.
Qed.

(** The three results of [addCardToSum], decrypted. *)
Lemma decrypt_addCardToSum baseSum aceCount card :
  let '(newBaseSum, newAceCount, finalSum) := addCardToSum baseSum aceCount card in
  FHE.decrypt newBaseSum =
    (FHE.decrypt baseSum + FHE.decrypt (getBlackjackBaseValue card)) mod 2 ^ 32 /\
  FHE.decrypt newAceCount =
    (FHE.decrypt aceCount + (if FHE.decrypt card =? 1 then 1 else 0)) mod 2 ^ 32 /\
  FHE.decrypt finalSum =
    if (0 <? FHE.decrypt newAceCount) &&
       ((FHE.decrypt newBaseSum + 10) mod 2 ^ 32 <=? 21)
    then (FHE.decrypt newBaseSum + 10) mod 2 ^ 32
    else FHE.decrypt newBaseSum.
Proof.
  unfold addCardToSum.
  split; [reflexivity | split].
  - unfold FHE.add at 1. cbn [FHE.decrypt]. now rewrite decrypt_aceIncrement.
  - apply decrypt_calculateBlackjackSum.
Qed.

End Arithmetic.

(** A card value is at most 255 and scores at most 255. *)
Lemma is_card_range h : is_card h = true -> 0 <= FHE.decrypt h <= 255.
Proof.
  destruct h; simpl; try discriminate.
  intros E; apply Z.eqb_eq in E; subst.
  pose proof (Z.mod_pos_bound pt (2 ^ 8) ltac:(reflexivity)).
  change (2 ^ 8) with 256 in *. lia.
Qed.

Lemma score_range h :
  is_card h = true -> 0 <= FHE.decrypt (getBlackjackBaseValue h) <= 255.
Proof.
  intros C. apply is_card_range in C. rewrite decrypt_getBlackjackBaseValue.
  destruct ((FHE.decrypt h =? 11) || (FHE.decrypt h =? 12) || (FHE.decrypt h =? 13)).
  - lia.
  - rewrite Z.mod_small; [lia |]. change (2 ^ 32) with 4294967296. lia.
Qed.

(** C6: for a card that encrypts a code between 1 and 13,
    [getBlackjackBaseValue] encrypts 10 for the codes 11, 12 and 13, 1 for
    the code 1, and the code itself for the codes 2 to 10. *)
Theorem getBlackjackBaseValue_codes (card : FHE.euint8) (code : Z) :
  FHE.decrypt card = code ->
  (11 <= code <= 13 -> FHE.decrypt (getBlackjackBaseValue card) = 10) /\
  (code = 1 -> FHE.decrypt (getBlackjackBaseValue card) = 1) /\
  (2 <= code <= 10 -> FHE.decrypt (getBlackjackBaseValue card) = code).
Proof.
  intros <-. rewrite decrypt_getBlackjackBaseValue.
  repeat split; intros H.
  - assert (E : FHE.decrypt card = 11 \/ FHE.decrypt card = 12 \/ FHE.decrypt card = 13)
      by lia.
    destruct E as [-> | [-> | ->]]; reflexivity.
  - rewrite H. reflexivity.
  - destruct (Z.eqb_spec (FHE.decrypt card) 11); [lia |].
    destruct (Z.eqb_spec (FHE.decrypt card) 12); [lia |].
    destruct (Z.eqb_spec (FHE.decrypt card) 13); [lia |].
    cbn [orb]. apply Z.mod_small. change (2 ^ 32) with 4294967296. lia.
Qed.

Lemma getBlackjackBaseValue_codes_witness :
  FHE.decrypt (getBlackjackBaseValue (FHE.HInput 8 0 12)) = 10 /\
  FHE.decrypt (getBlackjackBaseValue (FHE.HInput 8 1 1)) = 1 /\
  FHE.decrypt (getBlackjackBaseValue (FHE.HInput 8 2 7)) = 7.
Proof.
  split; [| split].
  - apply (proj1 (getBlackjackBaseValue_codes (FHE.HInput 8 0 12) 12 eq_refl)). lia.
  - apply (proj1 (proj2 (getBlackjackBaseValue_codes (FHE.HInput 8 1 1) 1 eq_refl))).
    reflexivity.
  - apply (proj2 (proj2 (getBlackjackBaseValue_codes (FHE.HInput 8 2 7) 7 eq_refl))). lia.
Defined.

Lemma score_nonneg card : 0 <= FHE.decrypt (getBlackjackBaseValue card).
Proof.
  rewrite decrypt_getBlackjackBaseValue.
  destruct ((FHE.decrypt card =? 11) || (FHE.decrypt card =? 12) || (FHE.decrypt card =? 13)).
  - lia.
  - apply Z.mod_pos_bound. reflexivity.
Qed.

(** C1: [addCardToSum] adds the score of the card to the base sum, adds one
    to the ace count exactly when the card encrypts 1, and returns as final
    sum the new base sum plus 10 exactly when the new ace count is positive
    and the new base sum plus 10 is at most 21, the new base sum otherwise.
    The sums are sums of [euint32], modulo 2^32; where nothing wraps around
    they are the sums of the integers.  Two aces on an empty hand give
    12. *)
Theorem addCardToSum_spec :
  (forall (baseSum aceCount : FHE.euint32) (card : FHE.euint8),
      let '(newBaseSum, newAceCount, finalSum) := addCardToSum baseSum aceCount card in
      FHE.decrypt newBaseSum =
        (FHE.decrypt baseSum + FHE.decrypt (getBlackjackBaseValue card)) mod 2 ^ 32 /\
      FHE.decrypt newAceCount =
        (FHE.decrypt aceCount + (if FHE.decrypt card =? 1 then 1 else 0)) mod 2 ^ 32 /\
      FHE.decrypt finalSum =
        if (0 <? FHE.decrypt newAceCount) &&
           ((FHE.decrypt newBaseSum + 10) mod 2 ^ 32 <=? 21)
        then (FHE.decrypt newBaseSum + 10) mod 2 ^ 32
        else FHE.decrypt newBaseSum) /\
  (forall (baseSum aceCount : FHE.euint32) (card : FHE.euint8),
      0 <= FHE.decrypt baseSum ->
      FHE.decrypt baseSum + FHE.decrypt (getBlackjackBaseValue card) + 10 < 2 ^ 32 ->
      0 <= FHE.decrypt aceCount ->
      FHE.decrypt aceCount + 1 < 2 ^ 32 ->
      let '(newBaseSum, newAceCount, finalSum) := addCardToSum baseSum aceCount card in
      FHE.decrypt newBaseSum =
        FHE.decrypt baseSum + FHE.decrypt (getBlackjackBaseValue card) /\
      FHE.decrypt newAceCount =
        (if FHE.decrypt card =? 1 then FHE.decrypt aceCount + 1
         else FHE.decrypt aceCount) /\
      FHE.decrypt finalSum =
        if (0 <? FHE.decrypt newAceCount) && (FHE.decrypt newBaseSum + 10 <=? 21)
        then FHE.decrypt newBaseSum + 10
        else FHE.decrypt newBaseSum) /\
  (forall id1 id2 : Z,
      let '(base1, aces1, _) :=
        addCardToSum (FHE.asEuint32 0) (FHE.asEuint32 0) (FHE.HInput 8 id1 1) in
      let '(_, _, finalSum) := addCardToSum base1 aces1 (FHE.HInput 8 id2 1) in
      FHE.decrypt finalSum = 12).
Proof.
  split; [| split].
  - intros. apply decrypt_addCardToSum.
  - intros baseSum aceCount card B0 B1 A0 A1.
    pose proof (decrypt_addCardToSum baseSum aceCount card) as D.
    pose proof (score_nonneg card) as S.
    destruct (addCardToSum baseSum aceCount card) as [[nb na] fs].
    destruct D as (Db & Da & Df).
    rewrite Z.mod_small in Db by lia.
    assert (Da' : FHE.decrypt na =
                  if FHE.decrypt card =? 1 then FHE.decrypt aceCount + 1
                  else FHE.decrypt aceCount).
    { rewrite Da. destruct (FHE.decrypt card =? 1).
      - apply Z.mod_small. lia.
      - rewrite Z.add_0_r. apply Z.mod_small. lia. }
    split; [exact Db |]. split; [exact Da' |].
    rewrite Df. rewrite (Z.mod_small (FHE.decrypt nb + 10)) by lia. reflexivity.
  - intros. reflexivity.
Qed.

Lemma addCardToSum_spec_witness :
  let '(newBaseSum, newAceCount, finalSum) :=
    addCardToSum (FHE.asEuint32 10) (FHE.asEuint32 0) (FHE.HInput 8 0 1) in
  FHE.decrypt newBaseSum = 11 /\ FHE.decrypt newAceCount = 1 /\ FHE.decrypt finalSum = 21.
Proof.
  apply (proj1 (proj2 addCardToSum_spec)
               (FHE.asEuint32 10) (FHE.asEuint32 0) (FHE.HInput 8 0 1)).
  - vm_compute. discriminate.
  - vm_compute. reflexivity.
  - vm_compute. discriminate.
  - vm_compute. reflexivity.
Defined.

(** ** Inverting successful calls *)

Ltac inv_bind H :=
  repeat
    (cbv zeta in H;
     match type of H with
     | bind (require ?c ?r) _ = Ok _ =>
         let R := fresh "R" in
         destruct c eqn:R; [cbn [bind require] in H | discriminate H]
     | bind (checked_add ?m ?a ?b) _ = Ok _ =>
         let R := fresh "R" in
         unfold checked_add in H;
         destruct (a + b <=? m) eqn:R; [cbn [bind] in H | discriminate H]
     | bind (checked_sub ?a ?b) _ = Ok _ =>
         let R := fresh "R" in
         unfold checked_sub in H;
         destruct (b <=? a) eqn:R; [cbn [bind] in H | discriminate H]
     | bind (checked_mul ?m ?a ?b) _ = Ok _ =>
         let R := fresh "R" in
         unfold checked_mul in H;
         destruct (a * b <=? m) eqn:R; [cbn [bind] in H | discriminate H]
     | bind ?r _ = Ok _ =>
         let R := fresh "R" in
         destruct r eqn:R; [cbn [bind] in H | discriminate H | discriminate H]
     | (let '(_, _) := ?p in _) = Ok _ =>
         let R := fresh "R" in destruct p eqn:R
     | (if ?b then _ else _) = Ok _ =>
         let R := fresh "R" in destruct b eqn:R
     end).

Ltac fields :=
  cbn [player betAmount plainBetAmount deck deckIndex playerCard1 playerCard2
       dealerCardUp dealerHoleCard playerSum dealerSum playerBaseSum dealerBaseSum
       playerAceCount dealerAceCount bustFlag winFlag continueFlag phase exists_
       set_deckIndex set_player_totals set_dealer_totals set_bustFlag set_winFlag
       set_continueFlag set_phase
       games nextGameId chipBalances ethBalance acl store] in *.

Lemma Phase_eqb_eq p q : Phase_eqb p q = true <-> p = q.
Proof. destruct p, q; simpl; split; congruence. Qed.

Ltac phase_facts :=
  repeat match goal with
  | H : (_ && _) = true |- _ => apply andb_prop in H as [? ?]
  | H : (_ || _) = true |- _ => apply orb_prop in H as [? | ?]
  | H : Phase_eqb _ _ = true |- _ => apply Phase_eqb_eq in H
  | H : (_ =? _) = true |- _ => apply Z.eqb_eq in H
  | H : (_ <? _) = true |- _ => apply Z.ltb_lt in H
  | H : (_ <=? _) = true |- _ => apply Z.leb_le in H
  end.

Lemma index_Ok {A} (l : list A) i a :
  index l i = Ok a -> 0 <= i /\ nth_error l (Z.to_nat i) = Some a.
Proof.
  unfold index. destruct (Z.leb_spec 0 i); [| discriminate].
  destruct (nth_error l (Z.to_nat i)) eqn:E; [| discriminate].
  intros [= ->]. auto.
Qed.

Lemma index_In {A} (l : list A) i a : index l i = Ok a -> In a l.
Proof. intros H. apply index_Ok in H as [_ H]. eapply nth_error_In; eauto. Qed.

Lemma addCardToSum_eq b a c nb na fs :
  addCardToSum b a c = (nb, na, fs) ->
  nb = FHE.add b (getBlackjackBaseValue c) /\
  na = FHE.add a (FHE.select (FHE.eq c (FHE.asEuint8 1)) (FHE.asEuint32 1) (FHE.asEuint32 0)) /\
  fs = calculateBlackjackSum nb na.
Proof. unfold addCardToSum. intros [= <- <- <-]. auto. Qed.

Lemma base_grows b c :
  is_card c = true -> 0 <= FHE.decrypt b <= 255 * 52 ->
  FHE.decrypt (FHE.add b (getBlackjackBaseValue c)) =
  FHE.decrypt b + FHE.decrypt (getBlackjackBaseValue c).
Proof.
  intros C B. apply score_range in C. unfold FHE.add. cbn [FHE.decrypt].
  apply Z.mod_small. change (2 ^ 32) with 4294967296. lia.
Qed.

Lemma write_game_same m id g : write_game m id g id = g.
Proof. unfold write_game. now rewrite Z.eqb_refl. Qed.

Lemma write_game_other m id g id' : id' <> id -> write_game m id g id' = m id'.
Proof. unfold write_game. intros N. apply Z.eqb_neq in N. now rewrite N. Qed.

Lemma world_inv_store w gid g l :
  world_inv w -> exists_ (games w gid) = true -> exists_ g = true -> game_inv g ->
  world_inv (store w gid g l).
Proof.
  intros [N F G U B] E Eg Ig.
  constructor; cbn [store nextGameId games chipBalances]; auto.
  - intros id. unfold write_game. destruct (Z.eqb_spec id gid) as [-> |]; auto.
  - intros id. unfold write_game. destruct (Z.eqb_spec id gid) as [-> |]; auto.
  - intros id. unfold write_game. destruct (Z.eqb_spec id gid) as [-> |]; auto. congruence.
Qed.

Lemma decrypt_bustFlag sum :
  FHE.decrypt (FHE.select (FHE.gt sum (FHE.asEuint32 21))
                          (FHE.asEuint32 1) (FHE.asEuint32 0)) = 1 ->
  21 < FHE.decrypt sum.
Proof.
  cbn [FHE.decrypt FHE.select FHE.gt FHE.asEuint32].
  change (21 mod 2 ^ 32) with 21. rewrite Z.gtb_ltb.
  destruct (Z.ltb_spec 21 (FHE.decrypt sum)); cbn; [auto | discriminate].
Qed.

Lemma hit_inv s gid w w' : world_inv w -> hit s gid w = Ok w' -> world_inv w'.
Proof.
  intros I H. unfold hit in H. inv_bind H. injection H as <-.
  apply andb_prop in R as [E _]. apply Z.ltb_lt in R1. apply Z.leb_le in R3.
  pose proof (inv_games _ I _ E) as [Wg Ix Len Cards C1 C2 CU CH PS PB BF DS].
  apply addCardToSum_eq in R4 as (-> & -> & ->).
  apply world_inv_store; auto.
  constructor; fields; auto; try lia.
  - rewrite base_grows; [| eauto using index_In | lia].
    pose proof (score_range a (Cards _ (index_In _ _ _ R2))). lia.
  - apply decrypt_bustFlag.
Qed.

Lemma stand_inv s gid w w' : world_inv w -> stand s gid w = Ok w' -> world_inv w'.
Proof.
  intros I H. unfold stand in H. inv_bind H. injection H as <-.
  apply andb_prop in R as [E _].
  pose proof (inv_games _ I _ E) as [Wg Ix Len Cards C1 C2 CU CH PS PB BF DS].
  apply addCardToSum_eq in R1 as (-> & -> & ->).
  apply world_inv_store; auto.
  constructor; fields; auto.
Qed.

Lemma dealerHit_inv gid w w' : world_inv w -> dealerHit gid w = Ok w' -> world_inv w'.
Proof.
  intros I H. unfold dealerHit in H. inv_bind H. injection H as <-.
  apply andb_prop in R as [E _]. apply Z.ltb_lt in R0.
  pose proof (inv_games _ I _ E) as [Wg Ix Len Cards C1 C2 CU CH PS PB BF DS].
  apply world_inv_store; auto.
  constructor; fields; auto; lia.
Qed.

Lemma setBustPhase_inv s gid w w' :
  world_inv w -> setBustPhase s gid w = Ok w' -> world_inv w'.
Proof.
  intros I H. unfold setBustPhase in H. inv_bind H. injection H as <-.
  apply andb_prop in R as [E _].
  pose proof (inv_games _ I _ E) as [Wg Ix Len Cards C1 C2 CU CH PS PB BF DS].
  apply world_inv_store; auto.
  constructor; fields; auto.
Qed.

Lemma endGame_inv gid w w' : world_inv w -> endGame gid w = Ok w' -> world_inv w'.
Proof.
  intros I H. unfold endGame in H. inv_bind H. injection H as <-.
  apply andb_prop in R as [E _].
  pose proof (inv_games _ I _ E) as [Wg Ix Len Cards C1 C2 CU CH PS PB BF DS].
  apply world_inv_store; auto.
  constructor; fields; auto.
Qed.

Lemma world_inv_ledger w b e :
  world_inv w -> (forall a, 0 <= b a) ->
  world_inv (mkWorld (games w) (nextGameId w) b e (acl w)).
Proof. intros [N F G U B] Hb. constructor; auto. Qed.

Lemma write_balance_nonneg m a v :
  (forall i, 0 <= m i) -> 0 <= v -> forall i, 0 <= write_balance m a v i.
Proof. intros M V i. unfold write_balance. destruct (i =? a); auto. Qed.

Lemma payoutWinner_inv s gid won w w' :
  world_inv w -> payoutWinner s gid won w = Ok w' -> world_inv w'.
Proof.
  intros I H. unfold payoutWinner in H. inv_bind H.
  - injection H as <-. apply world_inv_ledger; auto.
    pose proof (inv_wager _ (inv_games _ I _ R)).
    pose proof (inv_balances _ I (player (games w gid))).
    apply write_balance_nonneg; [apply (inv_balances _ I) | lia].
  - now injection H as <-.
Qed.

Lemma buyChips_inv s v w w' : world_inv w -> buyChips s v w = Ok w' -> world_inv w'.
Proof.
  intros I H. unfold buyChips in H. inv_bind H. injection H as <-.
  apply world_inv_ledger; auto.
  phase_facts. pose proof (inv_balances _ I s).
  apply write_balance_nonneg; [apply (inv_balances _ I) | lia].
Qed.

Lemma sellChips_inv s v ok w w' :
  world_inv w -> sellChips s v ok w = Ok w' -> world_inv w'.
Proof.
  intros I H. unfold sellChips in H. inv_bind H. injection H as <-.
  apply world_inv_ledger; auto.
  phase_facts.
  apply write_balance_nonneg; [apply (inv_balances _ I) | lia].
Qed.

Lemma loadDeck_Ok encDeck att n : forall i l cs l',
  loadDeck encDeck att i n l = Ok (cs, l') ->
  cs = map (fun k => inputCard encDeck (i + Z.of_nat k)) (seq 0 n) /\
  (forall h g, In (h, g) l' -> g = FHE.GThis \/ In (h, g) l) /\
  (forall x, In x l -> In x l').
Proof.
  induction n as [| n IH]; intros i l cs l' H; cbn [loadDeck] in H.
  - injection H as <- <-. repeat split; auto.
  - unfold FHE.fromExternal in H. inv_bind H. injection H as <- <-.
    cbn [verified] in R. destruct (existsb _ _); [| discriminate]. injection R as <-.
    apply IH in R0 as (-> & G & M). repeat split.
    + cbn [seq map]. rewrite Z.add_0_r. f_equal. rewrite <- seq_shift, map_map.
      apply map_ext. intros k. f_equal. lia.
    + intros h g Hin. apply G in Hin as [-> | Hin]; auto.
      destruct Hin as [[= <- <-] | Hin]; auto.
    + intros x Hin. apply M. now right.
Qed.

Lemma loadDeck_52 encDeck att l cs l' :
  loadDeck encDeck att 0 52 l = Ok (cs, l') ->
  cs = loadedDeck encDeck /\
  (forall h g, In (h, g) l' -> g = FHE.GThis \/ In (h, g) l) /\
  (forall x, In x l -> In x l').
Proof. intros H. apply loadDeck_Ok in H as (-> & G & M). auto. Qed.

Lemma loadedDeck_length encDeck : List.length (loadedDeck encDeck) = 52%nat.
Proof. reflexivity. Qed.

Lemma loadedDeck_In encDeck c :
  In c (loadedDeck encDeck) -> exists k, 0 <= k < 52 /\ c = inputCard encDeck k.
Proof.
  intros H. apply in_map_iff in H as (k & <- & H). apply in_seq in H.
  exists (Z.of_nat k). split; [lia | reflexivity].
Qed.

Lemma loadedDeck_nth encDeck (k : nat) :
  (k < 52)%nat -> nth k (loadedDeck encDeck) FHE.HNull = inputCard encDeck (Z.of_nat k).
Proof.
  intros L. unfold loadedDeck.
  rewrite nth_indep with (d' := inputCard encDeck (Z.of_nat 0))
    by (rewrite length_map, length_seq; lia).
  rewrite (map_nth (fun k => inputCard encDeck (Z.of_nat k))).
  rewrite seq_nth by lia. reflexivity.
Qed.

Ltac tidy :=
  repeat match goal with
  | H : addCardToSum _ _ _ = _ |- _ => apply addCardToSum_eq in H as (-> & -> & ->)
  | H : loadDeck _ _ _ _ _ = Ok _ |- _ => apply loadDeck_52 in H as (-> & ? & ?)
  | H : ?x = (_, _) |- _ => is_var x; subst x
  | H : true = true |- _ => clear H
  | H : Ok _ = Ok _ |- _ => injection H as H; try subst
  end.

Lemma startGame_inv s encDeck att bet betProof plainBet w gid w' :
  world_inv w -> startGame s encDeck att bet betProof plainBet w = Ok (gid, w') ->
  world_inv w'.
Proof.
  intros I H. unfold startGame in H. inv_bind H. tidy.
  phase_facts.
  destruct I as [N F G U B].
  constructor; cbn [nextGameId games chipBalances].
  - lia.
  - intros id. unfold write_game. destruct (Z.eqb_spec id (nextGameId w)) as [-> |].
    + lia.
    + intros E. apply F in E. lia.
  - intros id. unfold write_game. destruct (Z.eqb_spec id (nextGameId w)) as [-> |]; auto.
    intros _.
    constructor; fields; auto; try lia; try reflexivity.
    + intros c Hc. apply loadedDeck_In in Hc as (k & _ & ->). reflexivity.
    + pose proof (score_range (inputCard encDeck 0) eq_refl).
      pose proof (score_range (inputCard encDeck 1) eq_refl).
      assert (B0 : FHE.decrypt (FHE.asEuint32 0) = 0) by reflexivity.
      rewrite base_grows; [| reflexivity |]; rewrite base_grows; try reflexivity; lia.
    + discriminate.
  - intros id. unfold write_game. destruct (Z.eqb_spec id (nextGameId w)) as [-> |]; auto.
    discriminate.
  - apply write_balance_nonneg; [exact B | lia].
Qed.

Lemma world_inv_deployed : world_inv deployed.
Proof. constructor; cbn; auto; try lia; discriminate. Qed.

Lemma world_inv_step w tx : world_inv w -> world_inv (step w tx).
Proof.
  intros I. destruct tx as [s c]. unfold step. cbn [fst snd].
  destruct (exec s c w) as [w' | |] eqn:E; auto.
  destruct c; cbn [exec] in E.
  - eapply buyChips_inv; eauto.
  - eapply sellChips_inv; eauto.
  - unfold receive in E. tidy. apply world_inv_ledger; auto using inv_balances.
  - inv_bind E. tidy. eapply startGame_inv; eauto.
  - eapply hit_inv; eauto.
  - eapply stand_inv; eauto.
  - eapply dealerHit_inv; eauto.
  - eapply setBustPhase_inv; eauto.
  - eapply endGame_inv; eauto.
  - eapply payoutWinner_inv; eauto.
Qed.

Lemma reachable_inv w : reachable w -> world_inv w.
Proof. induction 1; auto using world_inv_deployed, world_inv_step. Qed.

(** Case analysis on a successful transaction: one goal per function of the
    contract, with the resulting state written out. *)
Ltac exec_cases E :=
  match type of E with
  | exec _ ?c _ = Ok _ =>
      destruct c; cbn [exec] in E;
      unfold buyChips, sellChips, receive, startGame, hit, stand, dealerHit,
             setBustPhase, endGame, payoutWinner in E;
      inv_bind E; tidy;
      repeat match goal with
      | H : bind _ _ = Ok _ |- _ => inv_bind H; tidy
      end
  end.

Lemma games_store w id g l gid :
  games (store w id g l) gid = if gid =? id then g else games w gid.
Proof. reflexivity. Qed.

Lemma reachable_run w txs : reachable w -> reachable (run w txs).
Proof.
  revert w. induction txs as [| tx txs IH]; intros w R; cbn [run fold_left]; auto.
  apply IH. now constructor.
Qed.

Lemma reachable_funded : reachable funded.
Proof. apply reachable_step, reachable_deployed. Qed.

Lemma reachable_dealt : reachable dealt.
Proof. apply reachable_step, reachable_funded. Qed.

Lemma reachable_dealerTurn : reachable dealerTurn.
Proof. apply reachable_run, reachable_dealt. Qed.

Lemma index_total {A} (l : list A) i :
  0 <= i < Z.of_nat (List.length l) -> exists a, index l i = Ok a.
Proof.
  intros R. unfold index. destruct (Z.leb_spec 0 i); [| lia].
  destruct (nth_error l (Z.to_nat i)) eqn:E; eauto.
  apply nth_error_None in E. lia.
Qed.

(** Only a hand that was started can have left the player's turn. *)
Lemma phase_exists w gid :
  world_inv w -> phase (games w gid) <> PlayerTurn -> exists_ (games w gid) = true.
Proof.
  intros I P. destruct (exists_ (games w gid)) eqn:E; auto.
  apply (inv_unwritten _ I) in E. rewrite E in P. now elim P.
Qed.

Lemma decrypt_lt17 h :
  FHE.decrypt (FHE.lt h (FHE.asEuint32 17)) = FHE.of_bool (FHE.decrypt h <? 17).
Proof. reflexivity. Qed.

(** ** The dealer's draw *)

(** C2: in a reachable state, a hand in phase DealerTurn with
    [deckIndex < 52] accepts [dealerHit]; the call draws the card
    [deck[deckIndex]] and advances [deckIndex] by one; when the dealer sum
    decrypts to 17 or more the dealer sum, base sum and ace count decrypt as
    before, and when it decrypts to less than 17 they decrypt to the results
    of [addCardToSum] on the former base sum, ace count and the drawn card. *)
Theorem dealerHit_totals w gid :
  reachable w ->
  phase (games w gid) = DealerTurn ->
  deckIndex (games w gid) < 52 ->
  exists w' c,
    dealerHit gid w = Ok w' /\
    index (deck (games w gid)) (deckIndex (games w gid)) = Ok c /\
    deckIndex (games w' gid) = deckIndex (games w gid) + 1 /\
    (17 <= FHE.decrypt (dealerSum (games w gid)) ->
     FHE.decrypt (dealerSum (games w' gid)) = FHE.decrypt (dealerSum (games w gid)) /\
     FHE.decrypt (dealerBaseSum (games w' gid)) =
       FHE.decrypt (dealerBaseSum (games w gid)) /\
     FHE.decrypt (dealerAceCount (games w' gid)) =
       FHE.decrypt (dealerAceCount (games w gid))) /\
    (FHE.decrypt (dealerSum (games w gid)) < 17 ->
     let '(newBaseSum, newAceCount, sumAfterCard) :=
       addCardToSum (dealerBaseSum (games w gid)) (dealerAceCount (games w gid)) c in
     FHE.decrypt (dealerSum (games w' gid)) = FHE.decrypt sumAfterCard /\
     FHE.decrypt (dealerBaseSum (games w' gid)) = FHE.decrypt newBaseSum /\
     FHE.decrypt (dealerAceCount (games w' gid)) = FHE.decrypt newAceCount).
Proof.
  intros Rw P L. apply reachable_inv in Rw.
  assert (E : exists_ (games w gid) = true) by (apply phase_exists; auto; congruence).
  pose proof (inv_games _ Rw _ E) as [Wg Ix Len Cards C1 C2 CU CH PS PB BF DS].
  destruct (index_total (deck (games w gid)) (deckIndex (games w gid))) as [c Hc];
    [lia |].
  unfold dealerHit. cbv zeta. rewrite E, P. cbn [andb Phase_eqb require bind].
  apply Z.ltb_lt in L as L'. rewrite L'. cbn [require bind]. fields.
  rewrite Hc. cbn [bind]. unfold checked_add.
  destruct (Z.leb_spec (deckIndex (games w gid) + 1) MAX_UINT8) as [_ | B];
    [| unfold MAX_UINT8 in B; lia].
  cbn [bind].
  destruct (addCardToSum _ _ c) as [[nb na] fs] eqn:A. fields.
  eexists _, c. split; [reflexivity |]. split; [reflexivity |].
  fields. rewrite write_game_same. fields.
  split; [reflexivity |].
  unfold FHE.select. cbn [FHE.decrypt]. rewrite decrypt_lt17.
  split; intros S.
  - destruct (Z.ltb_spec (FHE.decrypt (dealerSum (games w gid))) 17); [lia |].
    cbn [FHE.of_bool Z.eqb]. auto.
  - rewrite A.
    destruct (Z.ltb_spec (FHE.decrypt (dealerSum (games w gid))) 17); [| lia].
    cbn [FHE.of_bool Z.eqb]. auto.
Qed.

Lemma dealerHit_totals_witness :
  exists w', dealerHit 1 dealerTurn = Ok w' /\ deckIndex (games w' 1) = 6.
Proof.
  destruct (dealerHit_totals dealerTurn 1 reachable_dealerTurn)
    as (w' & c & H & _ & D & _).
  - reflexivity.
  - vm_compute. reflexivity.
  - exists w'. split; [exact H | exact D].
Defined.

(** ** Settlement *)

(** C4: [endGame] on an existing hand in phase GameEnding or DealerTurn
    succeeds; afterwards both player cards and the dealer hole card are
    publicly decryptable, [winFlag] decrypts to 1 exactly when the player sum
    exceeds the dealer sum or the dealer sum exceeds 21 and to 0 otherwise,
    [winFlag] is publicly decryptable, and the phase is Completed. *)
Theorem endGame_settles w gid :
  exists_ (games w gid) = true ->
  phase (games w gid) = GameEnding \/ phase (games w gid) = DealerTurn ->
  exists w',
    endGame gid w = Ok w' /\
    FHE.allowed (acl w') (playerCard1 (games w' gid)) FHE.GPublic /\
    FHE.allowed (acl w') (playerCard2 (games w' gid)) FHE.GPublic /\
    FHE.allowed (acl w') (dealerHoleCard (games w' gid)) FHE.GPublic /\
    FHE.decrypt (winFlag (games w' gid)) =
      (if (FHE.decrypt (playerSum (games w gid)) >? FHE.decrypt (dealerSum (games w gid)))
          || (FHE.decrypt (dealerSum (games w gid)) >? 21)
       then 1 else 0) /\
    FHE.allowed (acl w') (winFlag (games w' gid)) FHE.GPublic /\
    phase (games w' gid) = Completed.
Proof.
  intros E P. unfold endGame. cbv zeta. rewrite E.
  assert (Q : Phase_eqb (phase (games w gid)) GameEnding
              || Phase_eqb (phase (games w gid)) DealerTurn = true)
    by (destruct P as [-> | ->]; reflexivity).
  rewrite Q. cbn [andb require bind].
  eexists. split; [reflexivity |].
  fields. rewrite write_game_same. fields.
  unfold FHE.allowed, FHE.makePubliclyDecryptable, FHE.allow.
  repeat split; try (cbn [In]; tauto).
  unfold FHE.select, FHE.or, FHE.gt, FHE.asEuint32. cbn [FHE.decrypt].
  change (21 mod 2 ^ 32) with 21. change (1 mod 2 ^ 32) with 1.
  change (0 mod 2 ^ 32) with 0.
  destruct (FHE.decrypt (playerSum (games w gid)) >? FHE.decrypt (dealerSum (games w gid))),
    (FHE.decrypt (dealerSum (games w gid)) >? 21); reflexivity.
Qed.

Lemma endGame_settles_witness :
  exists w', endGame 1 dealerTurn = Ok w' /\ FHE.decrypt (winFlag (games w' 1)) = 1.
Proof.
  destruct (endGame_settles dealerTurn 1) as (w' & H & _ & _ & _ & W & _).
  - reflexivity.
  - right. reflexivity.
  - exists w'. split; [exact H | exact W].
Defined.

(** ** Completed hands *)

Lemma completed_step w tx gid :
  world_inv w -> phase (games w gid) = Completed ->
  games (step w tx) gid = games w gid.
Proof.
  intros I P. destruct tx as [s c]. unfold step. cbn [fst snd].
  destruct (exec s c w) as [w' | |] eqn:E; auto.
  assert (X : exists_ (games w gid) = true) by (apply phase_exists; auto; congruence).
  exec_cases E; phase_facts; fields; auto;
    try (unfold write_game;
         match goal with
         | |- (if gid =? ?i then _ else _) = _ =>
             destruct (Z.eqb_spec gid i) as [-> |]; auto
         end).
  all: try congruence.
  apply (inv_fresh _ I) in X. lia.
Qed.

Lemma completed_run w txs gid :
  world_inv w -> phase (games w gid) = Completed ->
  games (run w txs) gid = games w gid.
Proof.
  revert w. induction txs as [| tx txs IH]; intros w I P; cbn [run fold_left]; auto.
  pose proof (completed_step w tx gid I P) as S.
  change (games (run (step w tx) txs) gid = games w gid).
  rewrite IH; auto using world_inv_step. congruence.
Qed.

(** C8: in a reachable state, on a hand whose phase is Completed each of
    [hit], [stand], [dealerHit] and [setBustPhase] reverts, whoever calls
    it, and no transaction, alone or in sequence, changes any field of the
    hand; in particular its phase stays Completed. *)
Theorem completed_is_final w gid :
  reachable w ->
  phase (games w gid) = Completed ->
  (forall s, exists reason, hit s gid w = Revert reason) /\
  (forall s, exists reason, stand s gid w = Revert reason) /\
  (exists reason, dealerHit gid w = Revert reason) /\
  (forall s, exists reason, setBustPhase s gid w = Revert reason) /\
  (forall tx, games (step w tx) gid = games w gid) /\
  (forall txs, games (run w txs) gid = games w gid /\
               phase (games (run w txs) gid) = Completed).
Proof.
  intros Rw P. apply reachable_inv in Rw.
  repeat split.
  - intros s. unfold hit. cbv zeta. rewrite P.
    destruct (exists_ (games w gid) && (player (games w gid) =? s)); cbn; eauto.
  - intros s. unfold stand. cbv zeta. rewrite P.
    destruct (exists_ (games w gid) && (player (games w gid) =? s)); cbn; eauto.
  - unfold dealerHit. cbv zeta. rewrite P. rewrite andb_false_r. cbn. eauto.
  - intros s. unfold setBustPhase. cbv zeta. rewrite P.
    destruct (exists_ (games w gid) && (player (games w gid) =? s)); cbn; eauto.
  - intros tx. now apply completed_step.
  - now apply completed_run.
  - rewrite completed_run; auto.
Qed.

Lemma completed_is_final_witness :
  games (run settled [(alice, Hit 1); (bob, EndGame 1)]) 1 = games settled 1.
Proof.
  apply (completed_is_final settled 1).
  - apply reachable_run, reachable_dealerTurn.
  - reflexivity.
Defined.

(** *** The cursor *)

Lemma deckIndex_step w tx gid :
  world_inv w ->
  deckIndex (games (step w tx) gid) = deckIndex (games w gid) \/
  (deckIndex (games (step w tx) gid) = deckIndex (games w gid) + 1 /\
   deckIndex (games w gid) < 52 /\
   exists_ (games w gid) = true /\
   (snd tx = Hit gid \/ snd tx = DealerHit gid)) \/
  (deckIndex (games (step w tx) gid) = 4 /\
   deckIndex (games w gid) = 0 /\
   exists_ (games w gid) = false /\
   is_start (snd tx) = true).
Proof.
  intros I. destruct tx as [s c]. unfold step. cbn [fst snd].
  destruct (exec s c w) as [w' | |] eqn:E; auto.
  exec_cases E; phase_facts; fields; auto;
    try (unfold write_game;
         match goal with
         | |- context [if gid =? ?i then _ else _] =>
             destruct (Z.eqb_spec gid i) as [-> |]; fields; auto
         end).
  - right; right.
    assert (X : exists_ (games w (nextGameId w)) = false).
    { destruct (exists_ (games w (nextGameId w))) eqn:X; auto.
      apply (inv_fresh _ I) in X. lia. }
    rewrite (inv_unwritten _ I _ X). auto.
  - right; left. auto.
  - right; left. auto.
Qed.

Lemma deckIndex_range w gid :
  world_inv w -> 0 <= deckIndex (games w gid) <= 52.
Proof.
  intros I. destruct (exists_ (games w gid)) eqn:E.
  - pose proof (inv_index _ (inv_games _ I _ E)). lia.
  - rewrite (inv_unwritten _ I _ E). cbn. lia.
Qed.

Lemma deckIndex_mono_step w tx gid :
  world_inv w -> deckIndex (games w gid) <= deckIndex (games (step w tx) gid).
Proof.
  intros I. destruct (deckIndex_step w tx gid I) as [-> | [(-> & _) | (-> & -> & _)]]; lia.
Qed.

Lemma deckIndex_mono_run w txs gid :
  world_inv w -> deckIndex (games w gid) <= deckIndex (games (run w txs) gid).
Proof.
  revert w. induction txs as [| tx txs IH]; intros w I; cbn [run fold_left]; [lia |].
  change (deckIndex (games w gid) <= deckIndex (games (run (step w tx) txs) gid)).
  pose proof (deckIndex_mono_step w tx gid I).
  pose proof (IH (step w tx) (world_inv_step _ tx I)). lia.
Qed.

(** A draw, once accepted, moves the cursor of its hand by one and no
    other cursor. *)
Lemma hit_advances s gid w w' :
  hit s gid w = Ok w' ->
  deckIndex (games w gid) < 52 /\
  deckIndex (games w' gid) = deckIndex (games w gid) + 1 /\
  forall id, id <> gid -> deckIndex (games w' id) = deckIndex (games w id).
Proof.
  intros H. unfold hit in H. inv_bind H. tidy. phase_facts. fields.
  rewrite write_game_same. fields. repeat split; auto.
  intros id N. now rewrite write_game_other.
Qed.

Lemma dealerHit_advances gid w w' :
  dealerHit gid w = Ok w' ->
  deckIndex (games w gid) < 52 /\
  deckIndex (games w' gid) = deckIndex (games w gid) + 1 /\
  forall id, id <> gid -> deckIndex (games w' id) = deckIndex (games w id).
Proof.
  intros H. unfold dealerHit in H. inv_bind H. tidy. phase_facts. fields.
  rewrite write_game_same. fields. repeat split; auto.
  intros id N. now rewrite write_game_other.
Qed.

(** With its preconditions met, a draw is accepted. *)
Lemma hit_accepted s gid w :
  world_inv w ->
  exists_ (games w gid) = true ->
  player (games w gid) = s ->
  phase (games w gid) = PlayerTurn ->
  deckIndex (games w gid) < 52 ->
  exists w', hit s gid w = Ok w'.
Proof.
  intros I X O P L.
  pose proof (inv_games _ I _ X) as [Wg Ix Len Cards C1 C2 CU CH PS PB BF DS].
  destruct (index_total (deck (games w gid)) (deckIndex (games w gid))) as [c Hc];
    [lia |].
  unfold hit. cbv zeta. rewrite X, O, P, Z.eqb_refl. cbn [andb Phase_eqb require bind].
  rewrite (proj2 (Z.ltb_lt _ _) L). cbn [require bind]. rewrite Hc. cbn [bind].
  unfold checked_add.
  destruct (Z.leb_spec (deckIndex (games w gid) + 1) MAX_UINT8) as [_ | B];
    [| unfold MAX_UINT8 in B; lia].
  cbn [bind]. fields.
  destruct (addCardToSum _ _ c) as [[nb na] fs]. eauto.
Qed.

Lemma dealerHit_accepted gid w :
  world_inv w ->
  phase (games w gid) = DealerTurn ->
  deckIndex (games w gid) < 52 ->
  exists w', dealerHit gid w = Ok w'.
Proof.
  intros I P L.
  assert (X : exists_ (games w gid) = true) by (apply phase_exists; auto; congruence).
  pose proof (inv_games _ I _ X) as [Wg Ix Len Cards C1 C2 CU CH PS PB BF DS].
  destruct (index_total (deck (games w gid)) (deckIndex (games w gid))) as [c Hc];
    [lia |].
  unfold dealerHit. cbv zeta. rewrite X, P. cbn [andb Phase_eqb require bind].
  rewrite (proj2 (Z.ltb_lt _ _) L). cbn [require bind]. fields.
  rewrite Hc. cbn [bind]. unfold checked_add.
  destruct (Z.leb_spec (deckIndex (games w gid) + 1) MAX_UINT8) as [_ | B];
    [| unfold MAX_UINT8 in B; lia].
  cbn [bind]. fields.
  destruct (addCardToSum _ _ c) as [[nb na] fs]. eauto.
Qed.

(** C7: in every reachable state [deckIndex] of every hand lies between 0
    and 52; [startGame] sets it to 4; no transaction, alone or in sequence,
    decreases it; on an existing hand only [hit] and [dealerHit] on that
    hand change it, by exactly one and only when it is below 52; at 52 or
    more both refuse to draw; every accepted [hit] and every accepted
    [dealerHit] increments the cursor of its hand by exactly one and leaves
    the cursors of the other hands alone; and with their preconditions met
    and the cursor below 52 both are accepted. *)
Theorem deckIndex_cursor :
  (forall w gid, reachable w -> 0 <= deckIndex (games w gid) <= 52) /\
  (forall w s encDeck attestation encryptedBet betProof plainBet gid w',
      startGame s encDeck attestation encryptedBet betProof plainBet w = Ok (gid, w') ->
      deckIndex (games w' gid) = 4) /\
  (forall w tx gid, reachable w ->
      deckIndex (games w gid) <= deckIndex (games (step w tx) gid)) /\
  (forall w txs gid, reachable w ->
      deckIndex (games w gid) <= deckIndex (games (run w txs) gid) <= 52) /\
  (forall w tx gid, reachable w ->
      exists_ (games w gid) = true ->
      deckIndex (games (step w tx) gid) <> deckIndex (games w gid) ->
      (snd tx = Hit gid \/ snd tx = DealerHit gid) /\
      deckIndex (games w gid) < 52 /\
      deckIndex (games (step w tx) gid) = deckIndex (games w gid) + 1) /\
  (forall w s gid, 52 <= deckIndex (games w gid) ->
      (forall w', hit s gid w <> Ok w') /\ (forall w', dealerHit gid w <> Ok w')) /\
  (forall w s gid w', hit s gid w = Ok w' ->
      deckIndex (games w gid) < 52 /\
      deckIndex (games w' gid) = deckIndex (games w gid) + 1 /\
      deckIndex (games (step w (s, Hit gid)) gid) = deckIndex (games w gid) + 1 /\
      forall id, id <> gid -> deckIndex (games w' id) = deckIndex (games w id)) /\
  (forall w s gid w', dealerHit gid w = Ok w' ->
      deckIndex (games w gid) < 52 /\
      deckIndex (games w' gid) = deckIndex (games w gid) + 1 /\
      deckIndex (games (step w (s, DealerHit gid)) gid) = deckIndex (games w gid) + 1 /\
      forall id, id <> gid -> deckIndex (games w' id) = deckIndex (games w id)) /\
  (forall w s gid, reachable w ->
      exists_ (games w gid) = true ->
      player (games w gid) = s ->
      phase (games w gid) = PlayerTurn ->
      deckIndex (games w gid) < 52 ->
      exists w', hit s gid w = Ok w' /\
                 deckIndex (games w' gid) = deckIndex (games w gid) + 1) /\
  (forall w gid, reachable w ->
      phase (games w gid) = DealerTurn ->
      deckIndex (games w gid) < 52 ->
      exists w', dealerHit gid w = Ok w' /\
                 deckIndex (games w' gid) = deckIndex (games w gid) + 1).
Proof.
  split; [| split; [| split; [| split; [| split; [| split; [| split; [| split;
    [| split]]]]]]]].
  - intros w gid R. apply deckIndex_range, reachable_inv, R.
  - intros * H. unfold startGame in H. inv_bind H. tidy.
    cbn [games]. rewrite write_game_same. reflexivity.
  - intros w tx gid R. apply deckIndex_mono_step, reachable_inv, R.
  - intros w txs gid R. split.
    + apply deckIndex_mono_run, reachable_inv, R.
    + apply deckIndex_range, reachable_inv, reachable_run, R.
  - intros w tx gid R E N. apply reachable_inv in R.
    destruct (deckIndex_step w tx gid R) as [D | [(D & L & _ & C) | (_ & _ & X & _)]];
      [congruence | auto | congruence].
  - intros w s gid L. split; intros w' H.
    + unfold hit in H. inv_bind H. apply Z.ltb_lt in R1. lia.
    + unfold dealerHit in H. inv_bind H. apply Z.ltb_lt in R0. lia.
  - intros w s gid w' H. destruct (hit_advances s gid w w' H) as (L & A & F).
    repeat split; auto. unfold step. cbn [fst snd exec]. now rewrite H.
  - intros w s gid w' H. destruct (dealerHit_advances gid w w' H) as (L & A & F).
    repeat split; auto. unfold step. cbn [fst snd exec]. now rewrite H.
  - intros w s gid R X O P L. apply reachable_inv in R.
    destruct (hit_accepted s gid w R X O P L) as [w' H].
    exists w'. split; [exact H | apply (hit_advances s gid w w' H)].
  - intros w gid R P L. apply reachable_inv in R.
    destruct (dealerHit_accepted gid w R P L) as [w' H].
    exists w'. split; [exact H | apply (dealerHit_advances gid w w' H)].
Qed.

Lemma deckIndex_cursor_witness :
  0 <= deckIndex (games dealerTurn 1) <= 52 /\
  deckIndex (games dealerTurn 1)
    <= deckIndex (games (step dealerTurn (bob, DealerHit 1)) 1) /\
  (exists w', hit alice 1 dealt = Ok w' /\ deckIndex (games w' 1) = 5) /\
  (exists w', dealerHit 1 dealerTurn = Ok w' /\ deckIndex (games w' 1) = 6).
Proof.
  split; [| split; [| split]].
  - apply (proj1 deckIndex_cursor dealerTurn 1 reachable_dealerTurn).
  - apply (proj1 (proj2 (proj2 deckIndex_cursor)) dealerTurn (bob, DealerHit 1) 1
             reachable_dealerTurn).
  - destruct (proj1 (proj2 (proj2 (proj2 (proj2 (proj2 (proj2 (proj2 (proj2
                deckIndex_cursor)))))))) dealt alice 1 reachable_dealt)
      as (w' & H & D).
    + vm_compute. reflexivity.
    + vm_compute. reflexivity.
    + vm_compute. reflexivity.
    + vm_compute. reflexivity.
    + exists w'. split; [exact H |]. rewrite D. vm_compute. reflexivity.
  - destruct (proj2 (proj2 (proj2 (proj2 (proj2 (proj2 (proj2 (proj2 (proj2
                deckIndex_cursor)))))))) dealerTurn 1 reachable_dealerTurn)
      as (w' & H & D).
    + vm_compute. reflexivity.
    + vm_compute. reflexivity.
    + exists w'. split; [exact H |]. rewrite D. vm_compute. reflexivity.
Defined.

(** *** Busting *)

Lemma bust_stays base aces aces' c :
  is_card c = true ->
  0 <= FHE.decrypt base <= 255 * 52 ->
  21 < FHE.decrypt (calculateBlackjackSum base aces) ->
  FHE.decrypt base <= FHE.decrypt (FHE.add base (getBlackjackBaseValue c)) /\
  21 < FHE.decrypt (calculateBlackjackSum (FHE.add base (getBlackjackBaseValue c)) aces').
Proof.
  intros C B S. rewrite decrypt_calculateBlackjackSum in *.
  rewrite base_grows by assumption.
  pose proof (score_range c C) as V.
  assert (B21 : 21 < FHE.decrypt base).
  { destruct ((0 <? FHE.decrypt aces) && ((FHE.decrypt base + 10) mod 2 ^ 32 <=? 21))
      eqn:Q; [| assumption].
    apply andb_prop in Q as [_ Q]. apply Z.leb_le in Q. lia. }
  split; [lia |].
  rewrite (Z.mod_small (_ + 10)) by (change (2 ^ 32) with 4294967296; lia).
  destruct (Z.leb_spec (FHE.decrypt base + FHE.decrypt (getBlackjackBaseValue c) + 10) 21);
    [lia |].
  rewrite andb_false_r. lia.
Qed.

Lemma bust_step w tx gid :
  world_inv w ->
  21 < FHE.decrypt (playerSum (games w gid)) ->
  21 < FHE.decrypt (playerSum (games (step w tx) gid)).
Proof.
  intros I B.
  assert (X : exists_ (games w gid) = true).
  { destruct (exists_ (games w gid)) eqn:X; auto.
    rewrite (inv_unwritten _ I _ X) in B. cbn in B. lia. }
  pose proof (inv_games _ I _ X) as [Wg Ix Len Cards C1 C2 CU CH PS PB BF DS].
  destruct tx as [s c]. unfold step. cbn [fst snd].
  destruct (exec s c w) as [w' | |] eqn:E; auto.
  exec_cases E; phase_facts; fields; auto;
    try (unfold write_game;
         match goal with
         | |- context [if gid =? ?i then _ else _] =>
             destruct (Z.eqb_spec gid i) as [-> |]; fields; auto
         end).
  - apply (inv_fresh _ I) in X. lia.
  - rewrite PS in B. eapply bust_stays; eauto using index_In. lia.
Qed.

Lemma bust_exists w gid :
  world_inv w -> 21 < FHE.decrypt (playerSum (games w gid)) ->
  exists_ (games w gid) = true.
Proof.
  intros I B. destruct (exists_ (games w gid)) eqn:X; auto.
  rewrite (inv_unwritten _ I _ X) in B. cbn in B. lia.
Qed.

Lemma decrypt_bustFlag_set sum :
  21 < FHE.decrypt sum ->
  FHE.decrypt (FHE.select (FHE.gt sum (FHE.asEuint32 21))
                          (FHE.asEuint32 1) (FHE.asEuint32 0)) = 1.
Proof.
  intros L. cbn [FHE.decrypt FHE.select FHE.gt FHE.asEuint32].
  change (21 mod 2 ^ 32) with 21. rewrite Z.gtb_ltb.
  destruct (Z.ltb_spec 21 (FHE.decrypt sum)); [reflexivity | lia].
Qed.

Lemma bust_hit w s gid w' :
  world_inv w ->
  21 < FHE.decrypt (playerSum (games w gid)) ->
  hit s gid w = Ok w' ->
  FHE.decrypt (playerBaseSum (games w gid)) <= FHE.decrypt (playerBaseSum (games w' gid)) /\
  FHE.decrypt (playerSum (games w' gid)) = FHE.decrypt (playerBaseSum (games w' gid)) /\
  21 < FHE.decrypt (playerSum (games w' gid)) /\
  FHE.decrypt (bustFlag (games w' gid)) = 1.
Proof.
  intros I B H.
  pose proof (inv_games _ I _ (bust_exists _ _ I B))
    as [Wg Ix Len Cards C1 C2 CU CH PS PB BF DS].
  unfold hit in H. inv_bind H. tidy. phase_facts. fields.
  rewrite write_game_same. fields.
  rewrite PS in B.
  edestruct (bust_stays (playerBaseSum (games w gid))) as [G S];
    [eapply Cards, index_In; eassumption | lia | exact B |].
  split; [exact G |]. split; [| split; [exact S |]].
  - rewrite decrypt_calculateBlackjackSum in S |- *.
    destruct (_ && _) eqn:Q; [| reflexivity].
    apply andb_prop in Q as [_ Q]. apply Z.leb_le in Q. lia.
  - apply decrypt_bustFlag_set, S.
Qed.

Lemma bust_run w txs gid :
  world_inv w ->
  21 < FHE.decrypt (playerSum (games w gid)) ->
  21 < FHE.decrypt (playerSum (games (run w txs) gid)).
Proof.
  revert w. induction txs as [| tx txs IH]; intros w I B; cbn [run fold_left]; auto.
  apply (IH (step w tx)); auto using world_inv_step, bust_step.
Qed.

Lemma bustFlag_step w tx gid :
  world_inv w ->
  FHE.decrypt (bustFlag (games w gid)) = 1 ->
  FHE.decrypt (bustFlag (games (step w tx) gid)) = 1.
Proof.
  intros I F.
  assert (X : exists_ (games w gid) = true).
  { destruct (exists_ (games w gid)) eqn:X; auto.
    rewrite (inv_unwritten _ I _ X) in F. discriminate. }
  pose proof (inv_bustFlag _ (inv_games _ I _ X) F) as B.
  destruct tx as [s c]. unfold step. cbn [fst snd].
  destruct (exec s c w) as [w' | |] eqn:E; auto.
  destruct c; cbn [exec] in E;
    try (destruct (Z.eq_dec gameId gid) as [-> |];
         [| match type of E with
            | _ = Ok _ =>
                unfold hit, stand, dealerHit, setBustPhase, endGame in E;
                inv_bind E; tidy; fields; rewrite write_game_other by auto; auto
            end]).
  all: try (unfold buyChips, sellChips, receive, payoutWinner in E;
            inv_bind E; tidy; fields; auto; fail).
  - inv_bind E. tidy. unfold startGame in R. inv_bind R. tidy. fields.
    rewrite write_game_other; auto.
    apply (inv_fresh _ I) in X. lia.
  - now apply (bust_hit w s gid w' I B) in E.
  - unfold stand in E. inv_bind E. tidy. fields. now rewrite write_game_same.
  - unfold dealerHit in E. inv_bind E. tidy. fields. now rewrite write_game_same.
  - unfold setBustPhase in E. inv_bind E. tidy. fields. now rewrite write_game_same.
  - unfold endGame in E. inv_bind E. tidy. fields. now rewrite write_game_same.
Qed.

Lemma bustFlag_run w txs gid :
  world_inv w ->
  FHE.decrypt (bustFlag (games w gid)) = 1 ->
  FHE.decrypt (bustFlag (games (run w txs) gid)) = 1.
Proof.
  revert w. induction txs as [| tx txs IH]; intros w I B; cbn [run fold_left]; auto.
  apply (IH (step w tx)); auto using world_inv_step, bustFlag_step.
Qed.

(** C10: in a reachable state where the player sum of a hand decrypts to
    more than 21, a successful [hit] does not decrease the base sum, leaves
    the player sum equal to the base sum (no ace is promoted), keeps it above
    21 and sets [bustFlag] to 1; after any sequence of transactions the
    player sum is still above 21, and a [bustFlag] that decrypts to 1 still
    decrypts to 1. *)
Theorem bust_is_permanent w gid :
  reachable w ->
  21 < FHE.decrypt (playerSum (games w gid)) ->
  (forall s w', hit s gid w = Ok w' ->
     FHE.decrypt (playerBaseSum (games w gid)) <=
       FHE.decrypt (playerBaseSum (games w' gid)) /\
     FHE.decrypt (playerSum (games w' gid)) =
       FHE.decrypt (playerBaseSum (games w' gid)) /\
     21 < FHE.decrypt (playerSum (games w' gid)) /\
     FHE.decrypt (bustFlag (games w' gid)) = 1) /\
  (forall txs, 21 < FHE.decrypt (playerSum (games (run w txs) gid))) /\
  (FHE.decrypt (bustFlag (games w gid)) = 1 ->
   forall txs, FHE.decrypt (bustFlag (games (run w txs) gid)) = 1).
Proof.
  intros R B. apply reachable_inv in R. split; [| split].
  - intros s w'. now apply bust_hit.
  - intros txs. now apply bust_run.
  - intros F txs. now apply bustFlag_run.
Qed.

Lemma bust_is_permanent_witness :
  21 < FHE.decrypt (playerSum (games (run busted [(alice, Hit 1); (alice, Hit 1)]) 1)) /\
  FHE.decrypt (bustFlag (games (run busted [(alice, Hit 1)]) 1)) = 1.
Proof.
  assert (R : reachable busted) by apply reachable_run, reachable_dealt.
  assert (B : 21 < FHE.decrypt (playerSum (games busted 1))) by (vm_compute; reflexivity).
  split.
  - apply (proj1 (proj2 (bust_is_permanent busted 1 R B))).
  - apply (proj2 (proj2 (bust_is_permanent busted 1 R B))). reflexivity.
Defined.

(** ** Wagers and payouts *)

Lemma loadDeck_total encDeck att n : forall i l,
  (forall k, i <= k < i + Z.of_nat n -> FHE.fromExternal 8 (encDeck k) att <> None) ->
  exists cs l', loadDeck encDeck att i n l = Ok (cs, l').
Proof.
  induction n as [| n IH]; intros i l V; cbn [loadDeck].
  - eauto.
  - destruct (FHE.fromExternal 8 (encDeck i) att) as [c |] eqn:E;
      [| exfalso; apply (V i); [lia | exact E]].
    cbn [verified bind].
    destruct (IH (i + 1) (FHE.allowThis c l)) as (cs & l' & ->).
    + intros k K. apply V. lia.
    + cbn [bind]. eauto.
Qed.

(** What a successful [startGame] leaves behind. *)
Lemma startGame_Ok s encDeck att bet betProof plainBet w gid w' :
  startGame s encDeck att bet betProof plainBet w = Ok (gid, w') ->
  gid = nextGameId w /\
  0 < plainBet <= chipBalances w s /\
  nextGameId w' = nextGameId w + 1 /\
  chipBalances w' = write_balance (chipBalances w) s (chipBalances w s - plainBet) /\
  ethBalance w' = ethBalance w /\
  (forall id, id <> gid -> games w' id = games w id) /\
  player (games w' gid) = s /\
  plainBetAmount (games w' gid) = plainBet /\
  deck (games w' gid) = loadedDeck encDeck /\
  dealerHoleCard (games w' gid) = inputCard encDeck 3 /\
  deckIndex (games w' gid) = 4 /\
  phase (games w' gid) = PlayerTurn /\
  exists_ (games w' gid) = true.
Proof.
  intros H. unfold startGame in H. inv_bind H. tidy. phase_facts.
  cbn [games nextGameId chipBalances ethBalance]. rewrite write_game_same.
  repeat split; auto; try lia.
  intros id N. now apply write_game_other.
Qed.

Lemma startGame_total s encDeck att bet betProof plainBet w :
  0 < plainBet <= chipBalances w s ->
  nextGameId w < MAX_UINT256 ->
  FHE.fromExternal 32 bet betProof <> None ->
  (forall i, 0 <= i < 52 -> FHE.fromExternal 8 (encDeck i) att <> None) ->
  exists gid w', startGame s encDeck att bet betProof plainBet w = Ok (gid, w').
Proof.
  intros B N Vb Vd. unfold startGame.
  rewrite (proj2 (Z.ltb_lt 0 plainBet)) by lia. cbn [require bind].
  rewrite (proj2 (Z.leb_le plainBet (chipBalances w s))) by lia. cbn [require bind].
  unfold checked_sub. rewrite (proj2 (Z.leb_le plainBet (chipBalances w s))) by lia.
  cbn [bind].
  destruct (FHE.fromExternal 32 bet betProof) as [b |]; [| now elim Vb].
  cbn [verified bind]. unfold checked_add.
  rewrite (proj2 (Z.leb_le (nextGameId w + 1) MAX_UINT256)) by lia. cbn [bind].
  destruct (loadDeck_total encDeck att 52 0 (FHE.allowThis b (acl w))) as (cs & l' & ->).
  { intros k K. apply Vd. lia. }
  cbn [bind].
  repeat match goal with
         | |- context [addCardToSum ?b ?a ?c] =>
             destruct (addCardToSum b a c) as [[? ?] ?]
         end.
  eauto.
Qed.

(** The owner, the wager and the cards of a started hand never change. *)
Lemma static_step w tx gid :
  world_inv w -> exists_ (games w gid) = true ->
  exists_ (games (step w tx) gid) = true /\
  player (games (step w tx) gid) = player (games w gid) /\
  plainBetAmount (games (step w tx) gid) = plainBetAmount (games w gid) /\
  deck (games (step w tx) gid) = deck (games w gid) /\
  dealerHoleCard (games (step w tx) gid) = dealerHoleCard (games w gid).
Proof.
  intros I X. destruct tx as [s c]. unfold step. cbn [fst snd].
  destruct (exec s c w) as [w' | |] eqn:E; auto.
  exec_cases E; phase_facts; fields; auto;
    try (unfold write_game;
         match goal with
         | |- context [if gid =? ?i then _ else _] =>
             destruct (Z.eqb_spec gid i) as [-> |]; fields; auto
         end).
  apply (inv_fresh _ I) in X. lia.
Qed.

Lemma static_run w txs gid :
  world_inv w -> exists_ (games w gid) = true ->
  exists_ (games (run w txs) gid) = true /\
  player (games (run w txs) gid) = player (games w gid) /\
  plainBetAmount (games (run w txs) gid) = plainBetAmount (games w gid) /\
  deck (games (run w txs) gid) = deck (games w gid) /\
  dealerHoleCard (games (run w txs) gid) = dealerHoleCard (games w gid).
Proof.
  revert w. induction txs as [| tx txs IH]; intros w I X; cbn [run fold_left]; auto.
  destruct (static_step w tx gid I X) as (X' & P & B & D & H).
  destruct (IH (step w tx) (world_inv_step _ tx I) X') as (X'' & P' & B' & D' & H').
  unfold run in *. repeat split; congruence.
Qed.

(** The game functions never touch the ledger. *)
Lemma ledger_step w tx :
  game_op (snd tx) = true -> chipBalances (step w tx) = chipBalances w.
Proof.
  destruct tx as [s c]. unfold step. cbn [fst snd]. intros G.
  destruct (exec s c w) as [w' | |] eqn:E; auto.
  destruct c; try discriminate G; cbn [exec] in E;
    unfold hit, stand, dealerHit, setBustPhase, endGame in E; inv_bind E; tidy;
    reflexivity.
Qed.

Lemma ledger_run w txs :
  forallb game_op (map snd txs) = true -> chipBalances (run w txs) = chipBalances w.
Proof.
  revert w. induction txs as [| tx txs IH]; intros w G; cbn [run fold_left]; auto.
  cbn [map forallb] in G. apply andb_prop in G as [G1 G2].
  change (chipBalances (run (step w tx) txs) = chipBalances w).
  rewrite IH by assumption. now apply ledger_step.
Qed.

Lemma reachable_inv_run w txs : world_inv w -> world_inv (run w txs).
Proof.
  revert w. induction txs as [| tx txs IH]; intros w I; cbn [run fold_left]; auto.
  apply IH, world_inv_step, I.
Qed.

Lemma write_balance_same m a v : write_balance m a v a = v.
Proof. unfold write_balance. now rewrite Z.eqb_refl. Qed.

Lemma payoutWinner_win s gid w :
  exists_ (games w gid) = true ->
  phase (games w gid) = Completed ->
  player (games w gid) = s ->
  0 <= chipBalances w s ->
  chipBalances w s + 2 * plainBetAmount (games w gid) <= MAX_UINT256 ->
  exists w', payoutWinner s gid true w = Ok w' /\
             chipBalances w' s = chipBalances w s + 2 * plainBetAmount (games w gid).
Proof.
  intros X P O C0 M. unfold payoutWinner. cbv zeta.
  rewrite X, P, O, Z.eqb_refl. cbn [require bind Phase_eqb].
  unfold checked_mul.
  rewrite (proj2 (Z.leb_le (plainBetAmount (games w gid) * 2) MAX_UINT256)) by lia.
  cbn [bind]. unfold checked_add.
  rewrite (proj2 (Z.leb_le _ MAX_UINT256)) by lia.
  cbn [bind]. eexists. split; [reflexivity |].
  cbn [chipBalances]. rewrite write_balance_same. lia.
Qed.

Lemma payoutWinner_loss s gid w :
  exists_ (games w gid) = true ->
  phase (games w gid) = Completed ->
  player (games w gid) = s ->
  payoutWinner s gid false w = Ok w.
Proof.
  intros X P O. unfold payoutWinner. cbv zeta.
  rewrite X, P, O, Z.eqb_refl. reflexivity.
Qed.

Lemma payoutWinner_overflow s gid w :
  exists_ (games w gid) = true ->
  phase (games w gid) = Completed ->
  player (games w gid) = s ->
  0 <= chipBalances w s ->
  MAX_UINT256 < chipBalances w s + 2 * plainBetAmount (games w gid) ->
  payoutWinner s gid true w = Panic 17.
Proof.
  intros X P O C0 M. unfold payoutWinner. cbv zeta.
  rewrite X, P, O, Z.eqb_refl. cbn [require bind Phase_eqb].
  unfold checked_mul.
  destruct (Z.leb_spec (plainBetAmount (games w gid) * 2) MAX_UINT256); [| reflexivity].
  cbn [bind]. unfold checked_add.
  destruct (Z.leb_spec (chipBalances w s + plainBetAmount (games w gid) * 2) MAX_UINT256);
    [lia | reflexivity].
Qed.

(** C5 (amended): in a reachable state whose game counter is below its
    maximum, a [startGame] with verified inputs and a wager [0 < w <= b]
    against the caller's balance [b] succeeds and leaves the balance at
    [b - w].  Once the hand is Completed, after any transactions,
    [payoutWinner] with [false] changes nothing, and with [true] it adds
    exactly [2 * w] to the owner's balance provided the sum does not exceed
    2^256 - 1, and panics without effect when it does; when only game
    functions ran in between, the balance before the claim is [b - w] and
    the claim brings it to [b + w] provided [b + w <= 2^256 - 1]. *)
Theorem wager_and_payout w s encDeck attestation encryptedBet betProof wager :
  reachable w ->
  0 < wager <= chipBalances w s ->
  nextGameId w < MAX_UINT256 ->
  FHE.fromExternal 32 encryptedBet betProof <> None ->
  (forall i, 0 <= i < 52 -> FHE.fromExternal 8 (encDeck i) attestation <> None) ->
  exists gid w1,
    startGame s encDeck attestation encryptedBet betProof wager w = Ok (gid, w1) /\
    chipBalances w1 s = chipBalances w s - wager /\
    forall txs,
      let w2 := run w1 txs in
      phase (games w2 gid) = Completed ->
      payoutWinner s gid false w2 = Ok w2 /\
      (chipBalances w2 s + 2 * wager <= MAX_UINT256 ->
       exists w3, payoutWinner s gid true w2 = Ok w3 /\
                  chipBalances w3 s = chipBalances w2 s + 2 * wager) /\
      (MAX_UINT256 < chipBalances w2 s + 2 * wager ->
       payoutWinner s gid true w2 = Panic 17 /\
       step w2 (s, PayoutWinner gid true) = w2) /\
      (forallb game_op (map snd txs) = true ->
       chipBalances w2 s = chipBalances w s - wager /\
       (chipBalances w s + wager <= MAX_UINT256 ->
        exists w3, payoutWinner s gid true w2 = Ok w3 /\
                   chipBalances w3 s = chipBalances w s + wager)).
Proof.
  intros R B N Vb Vd. apply reachable_inv in R.
  destruct (startGame_total s encDeck attestation encryptedBet betProof wager w)
    as (gid & w1 & S); auto.
  pose proof (startGame_inv _ _ _ _ _ _ _ _ _ R S) as I1.
  apply startGame_Ok in S as S'.
  destruct S' as (-> & _ & _ & C1 & _ & _ & P1 & W1 & _ & _ & _ & _ & X1).
  assert (B1 : chipBalances w1 s = chipBalances w s - wager)
    by (rewrite C1; apply write_balance_same).
  exists (nextGameId w), w1. split; [exact S |]. split; [exact B1 |].
  intros txs w2 Pc.
  destruct (static_run w1 txs (nextGameId w) I1 X1) as (X2 & P2 & W2 & _).
  fold w2 in X2, P2, W2. rewrite P1 in P2. rewrite W1 in W2.
  assert (I2 : world_inv w2) by (apply reachable_inv_run; assumption).
  pose proof (inv_balances _ I2 s) as C2.
  split; [now apply payoutWinner_loss |]. split; [| split].
  - intros M. rewrite <- W2 in M |- *. now apply payoutWinner_win.
  - intros M. rewrite <- W2 in M.
    assert (Pn : payoutWinner s (nextGameId w) true w2 = Panic 17)
      by now apply payoutWinner_overflow.
    split; [exact Pn |]. unfold step. cbn [fst snd exec]. now rewrite Pn.
  - intros G. assert (L : chipBalances w2 s = chipBalances w s - wager).
    { unfold w2. rewrite ledger_run by assumption. exact B1. }
    split; [exact L |]. intros M.
    destruct (payoutWinner_win s (nextGameId w) w2) as (w3 & H3 & C3); auto.
    + rewrite W2. lia.
    + exists w3. split; [exact H3 |]. rewrite C3, W2, L. lia.
Qed.

Lemma external_eqb_refl e : FHE.external_eqb e e = true.
Proof. unfold FHE.external_eqb. now rewrite !Z.eqb_refl. Qed.

Lemma sampleAttestation_covers i :
  0 <= i < 52 -> FHE.fromExternal 8 (sampleDeck i) sampleAttestation <> None.
Proof.
  intros R. unfold FHE.fromExternal.
  assert (E : existsb (FHE.external_eqb (sampleDeck i)) sampleAttestation = true).
  { apply existsb_exists. exists (sampleDeck i). split; [| apply external_eqb_refl].
    unfold sampleAttestation. apply in_map_iff. exists (Z.to_nat i).
    split; [f_equal; lia | apply in_seq; lia]. }
  rewrite E. discriminate.
Qed.

Lemma sampleBet_attested : FHE.fromExternal 32 sampleBet [sampleBet] <> None.
Proof. discriminate. Qed.

Lemma wager_and_payout_witness :
  exists gid w1,
    startGame alice sampleDeck sampleAttestation sampleBet [sampleBet] 100 funded
      = Ok (gid, w1) /\
    chipBalances w1 alice = 900.
Proof.
  destruct (wager_and_payout funded alice sampleDeck sampleAttestation sampleBet
              [sampleBet] 100 reachable_funded)
    as (gid & w1 & S & B & _).
  - vm_compute. split; [reflexivity | discriminate].
  - vm_compute. reflexivity.
  - exact sampleBet_attested.
  - exact sampleAttestation_covers.
  - exists gid, w1. split; [exact S | exact B].
Defined.

Lemma setBustPhase_total s gid w :
  exists_ (games w gid) = true ->
  player (games w gid) = s ->
  phase (games w gid) = PlayerTurn ->
  setBustPhase s gid w = Ok (store w gid (set_phase (games w gid) GameEnding) (acl w)).
Proof.
  intros X O P. unfold setBustPhase. cbv zeta.
  rewrite X, O, P, Z.eqb_refl. reflexivity.
Qed.

Lemma endGame_total gid w :
  exists_ (games w gid) = true ->
  phase (games w gid) = GameEnding \/ phase (games w gid) = DealerTurn ->
  exists w', endGame gid w = Ok w' /\
             chipBalances w' = chipBalances w /\
             exists_ (games w' gid) = true /\
             player (games w' gid) = player (games w gid) /\
             plainBetAmount (games w' gid) = plainBetAmount (games w gid) /\
             phase (games w' gid) = Completed.
Proof.
  intros X P. unfold endGame. cbv zeta. rewrite X.
  assert (Q : Phase_eqb (phase (games w gid)) GameEnding
              || Phase_eqb (phase (games w gid)) DealerTurn = true)
    by (destruct P as [-> | ->]; reflexivity).
  rewrite Q. cbn [andb require bind].
  eexists. split; [reflexivity |]. fields. rewrite write_game_same. fields. auto.
Qed.

(** A hand abandoned at the player's turn and settled at once. *)
Lemma bust_settle s s' gid w :
  exists_ (games w gid) = true ->
  player (games w gid) = s ->
  phase (games w gid) = PlayerTurn ->
  let w' := run w [(s, SetBustPhase gid); (s', EndGame gid)] in
  exists_ (games w' gid) = true /\
  player (games w' gid) = s /\
  plainBetAmount (games w' gid) = plainBetAmount (games w gid) /\
  phase (games w' gid) = Completed /\
  chipBalances w' = chipBalances w.
Proof.
  intros X O P. cbn [run fold_left].
  assert (S1 : step w (s, SetBustPhase gid)
               = store w gid (set_phase (games w gid) GameEnding) (acl w)).
  { unfold step. cbn [fst snd exec]. now rewrite setBustPhase_total. }
  rewrite S1.
  destruct (endGame_total gid (store w gid (set_phase (games w gid) GameEnding) (acl w)))
    as (w' & E & C & X' & O' & B' & P').
  { fields. now rewrite write_game_same. }
  { left. fields. now rewrite write_game_same. }
  unfold step. cbn [fst snd exec]. rewrite E.
  fields. rewrite write_game_same in O', B'. fields.
  repeat split; congruence.
Qed.

(** C5 as stated fails: [whale] is reachable and holds more than 2^255
    chips; betting them all is accepted, and once the hand is Completed the
    winning claim panics on overflow and credits nothing. *)
Lemma payout_overflow_counterexample :
  reachable whale /\
  let b := chipBalances whale alice in
  let wager := b in
  0 < wager <= b /\
  exists gid w1,
    startGame alice sampleDeck sampleAttestation sampleBet [sampleBet] wager whale
      = Ok (gid, w1) /\
    chipBalances w1 alice = b - wager /\
    let w2 := run w1 [(alice, SetBustPhase gid); (bob, EndGame gid)] in
    phase (games w2 gid) = Completed /\
    payoutWinner alice gid true w2 = Panic 17 /\
    chipBalances (step w2 (alice, PayoutWinner gid true)) alice <> b + wager.
Proof.
  assert (Rw : reachable whale) by apply reachable_run, reachable_step, reachable_deployed.
  assert (Wb : chipBalances whale alice = 10000 * 4 ^ 121) by (vm_compute; reflexivity).
  assert (Wn : nextGameId whale = 122) by (vm_compute; reflexivity).
  split; [exact Rw |]. cbv zeta. rewrite Wb.
  remember whale as W eqn:EW. clear EW.
  split; [split; [reflexivity | discriminate] |].
  destruct (startGame_total alice sampleDeck sampleAttestation sampleBet [sampleBet]
              (10000 * 4 ^ 121) W) as (gid & w1 & S).
  { rewrite Wb. split; [reflexivity | discriminate]. }
  { rewrite Wn. reflexivity. }
  { exact sampleBet_attested. }
  { exact sampleAttestation_covers. }
  exists gid, w1. split; [exact S |].
  apply startGame_Ok in S as (-> & _ & _ & C1 & _ & _ & P1 & W1 & _ & _ & _ & F1 & X1).
  assert (B1 : chipBalances w1 alice = 0).
  { rewrite C1, write_balance_same, Wb. reflexivity. }
  split; [rewrite B1; reflexivity |].
  destruct (bust_settle alice bob (nextGameId W) w1 X1 P1 F1) as (X2 & P2 & W2 & F2 & C2).
  split; [exact F2 |].
  assert (Pn : payoutWinner alice (nextGameId W)
                 true (run w1 [(alice, SetBustPhase (nextGameId W));
                               (bob, EndGame (nextGameId W))]) = Panic 17).
  { apply payoutWinner_overflow; auto.
    - rewrite C2, B1. reflexivity.
    - rewrite C2, B1, W2, W1. reflexivity. }
  split; [exact Pn |].
  unfold step. cbn [fst snd exec]. rewrite Pn, C2, B1. discriminate.
Qed.

(** ** Rejected calls *)







(** ** The hole card *)

Lemma nth_deck g (i : nat) :
  game_inv g -> (i < 52)%nat -> nth_error (deck g) i = Some (nth i (deck g) FHE.HNull).
Proof. intros I L. apply nth_error_nth'. rewrite (inv_deck_length _ I). exact L. Qed.

Lemma hole_is_card g : game_inv g -> is_card (dealerHoleCard g) = true.
Proof.
  intros I. apply (inv_deck_cards _ I). rewrite (inv_holeCard _ I).
  apply nth_In. rewrite (inv_deck_length _ I). lia.
Qed.

(** A handle that is the result of a computation is no encrypted input. *)
Lemma computed_not_card h : is_input h = false -> is_card h = true -> False.
Proof. destruct h; simpl; congruence. Qed.

Ltac grants H :=
  unfold FHE.allowed, FHE.allow, FHE.allowThis, FHE.makePubliclyDecryptable in H;
  cbn [In] in H;
  repeat match type of H with
         | _ \/ _ => destruct H as [H | H]
         end.

Lemma exclusive_at w gid h id (i : nat) :
  exclusive w gid h ->
  exists_ (games w id) = true ->
  nth_error (deck (games w id)) i = Some h ->
  id <> gid \/ i <> 3%nat ->
  False.
Proof. intros Ex X N [D | D]; destruct (Ex id i X N); contradiction. Qed.

Lemma hidden_step w tx gid g :
  world_inv w ->
  exists_ (games w gid) = true ->
  exclusive w gid (dealerHoleCard (games w gid)) ->
  keeps_hidden gid (dealerHoleCard (games w gid)) (snd tx) ->
  discloses g = true ->
  FHE.allowed (acl (step w tx)) (dealerHoleCard (games w gid)) g ->
  FHE.allowed (acl w) (dealerHoleCard (games w gid)) g.
Proof.
  intros I X Ex K D.
  pose proof (hole_is_card _ (inv_games _ I _ X)) as Hc.
  set (h := dealerHoleCard (games w gid)) in *. clearbody h.
  destruct tx as [s c]. unfold step. cbn [fst snd] in *.
  destruct (exec s c w) as [w' | |] eqn:E; auto.
  exec_cases E; phase_facts; fields; auto; intros A; grants A; auto;
    try (injection A as <- <-; try discriminate D).
  all: try (exfalso; eapply computed_not_card; [| exact Hc]; reflexivity).
  all: try match goal with
           | K : keeps_hidden _ (inputCard ?d ?i) (StartGame ?d _ _ _ _) |- _ =>
               exfalso; apply (K i); [lia | reflexivity]
           | G : forall h g, In (h, g) ?l -> _, A : In _ ?l |- _ =>
               apply G in A as [-> | A]; [discriminate D |];
               grants A; [injection A as <- <-; discriminate D | exact A]
           | R : index (deck (games _ ?id)) (deckIndex (games _ ?id)) = Ok ?a,
             X' : exists_ (games _ ?id) = true |- _ =>
               exfalso; apply index_Ok in R as [? R];
               pose proof (inv_index _ (inv_games _ I _ X'));
               apply (exclusive_at _ _ _ _ _ Ex X' R); right; lia
           | X' : exists_ (games _ ?id) = true
             |- FHE.allowed _ (dealerSum (games _ ?id)) _ =>
               exfalso; eapply computed_not_card; [| exact Hc];
               apply (inv_dealerSum _ (inv_games _ I _ X'))
           | X' : exists_ (games _ ?id) = true
             |- FHE.allowed _ (playerCard1 (games _ ?id)) _ =>
               exfalso; pose proof (inv_games _ I _ X') as Ig;
               rewrite (inv_card1 _ Ig) in Ex;
               apply (exclusive_at _ _ _ _ 0%nat Ex X');
               [apply nth_deck; [exact Ig | lia] | right; lia]
           | X' : exists_ (games _ ?id) = true
             |- FHE.allowed _ (playerCard2 (games _ ?id)) _ =>
               exfalso; pose proof (inv_games _ I _ X') as Ig;
               rewrite (inv_card2 _ Ig) in Ex;
               apply (exclusive_at _ _ _ _ 1%nat Ex X');
               [apply nth_deck; [exact Ig | lia] | right; lia]
           | X' : exists_ (games _ ?id) = true
             |- FHE.allowed _ (dealerHoleCard (games _ ?id)) _ =>
               exfalso; pose proof (inv_games _ I _ X') as Ig;
               rewrite (inv_holeCard _ Ig) in Ex;
               apply (exclusive_at _ _ _ _ 3%nat Ex X');
               [apply nth_deck; [exact Ig | lia] | left; exact K]
           end.
Qed.

Lemma exclusive_step w tx gid h :
  world_inv w ->
  exclusive w gid h ->
  keeps_hidden gid h (snd tx) ->
  exclusive (step w tx) gid h.
Proof.
  intros I Ex K. destruct tx as [s c]. unfold step. cbn [fst snd] in *.
  destruct (exec s c w) as [w' | |] eqn:E; auto.
  exec_cases E; phase_facts; fields; auto; intros id i; fields; unfold write_game;
    try (destruct (Z.eqb_spec id gameId) as [-> |]; fields; auto using Ex).
  destruct (Z.eqb_spec id (nextGameId w)) as [-> |]; fields; auto using Ex.
  intros _ N. apply nth_error_In, loadedDeck_In in N as (k & Rk & ->).
  now elim (K k Rk).
Qed.

(** Grants are never withdrawn. *)
Lemma allowed_step w tx h g :
  FHE.allowed (acl w) h g -> FHE.allowed (acl (step w tx)) h g.
Proof.
  intros A. destruct tx as [s c]. unfold step. cbn [fst snd].
  destruct (exec s c w) as [w' | |] eqn:E; auto.
  exec_cases E; fields; auto;
    unfold FHE.allowed, FHE.allow, FHE.allowThis, FHE.makePubliclyDecryptable in *;
    cbn [In]; try tauto.
  repeat right. match goal with M : forall x, In x _ -> In x _ |- _ => apply M end.
  now right.
Qed.

Lemma isAllowed_iff l h g : isAllowed l h g = true <-> FHE.allowed l h g.
Proof.
  unfold isAllowed, FHE.allowed.
  destruct (in_dec grant_eq_dec (h, g) l); split; auto; discriminate.
Qed.

Lemma isAllowed_step w tx h g :
  isAllowed (acl w) h g = true -> isAllowed (acl (step w tx)) h g = true.
Proof. rewrite !isAllowed_iff. apply allowed_step. Qed.

Lemma disclosure_step w tx owner h :
  rank (disclosure (acl w) owner h) <= rank (disclosure (acl (step w tx)) owner h).
Proof.
  unfold disclosure.
  destruct (isAllowed (acl w) h FHE.GPublic) eqn:P.
  - rewrite (isAllowed_step _ tx _ _ P). cbn. lia.
  - destruct (isAllowed (acl w) h (FHE.GAccount owner)) eqn:O.
    + rewrite (isAllowed_step _ tx _ _ O).
      destruct (isAllowed (acl (step w tx)) h FHE.GPublic); cbn; lia.
    + destruct (isAllowed (acl (step w tx)) h FHE.GPublic),
               (isAllowed (acl (step w tx)) h (FHE.GAccount owner)); cbn; lia.
Qed.

Lemma hidden_run w txs gid g :
  world_inv w ->
  exists_ (games w gid) = true ->
  exclusive w gid (dealerHoleCard (games w gid)) ->
  Forall (fun tx => keeps_hidden gid (dealerHoleCard (games w gid)) (snd tx)) txs ->
  discloses g = true ->
  FHE.allowed (acl (run w txs)) (dealerHoleCard (games w gid)) g ->
  FHE.allowed (acl w) (dealerHoleCard (games w gid)) g.
Proof.
  revert w. induction txs as [| tx txs IH]; intros w I X Ex K D A; cbn [run fold_left] in A;
    auto.
  inversion K as [| ? ? K1 K2]; subst.
  destruct (static_step w tx gid I X) as (X' & _ & _ & _ & H').
  apply (hidden_step w tx gid g I X Ex K1 D).
  rewrite <- H'. apply IH; auto using world_inv_step.
  - rewrite H'. now apply exclusive_step.
  - now rewrite H'.
  - now rewrite H'.
Qed.

Lemma disclosure_hidden l l' owner h :
  (forall g, discloses g = true -> FHE.allowed l' h g -> FHE.allowed l h g) ->
  (forall g, FHE.allowed l h g -> FHE.allowed l' h g) ->
  disclosure l' owner h = disclosure l owner h.
Proof.
  intros Back Fwd. unfold disclosure.
  assert (E : forall g, discloses g = true -> isAllowed l' h g = isAllowed l h g).
  { intros g D. destruct (isAllowed l h g) eqn:A.
    - apply isAllowed_iff, Fwd, isAllowed_iff, A.
    - destruct (isAllowed l' h g) eqn:A'; auto.
      apply isAllowed_iff, (Back g D), isAllowed_iff in A'. congruence. }
  now rewrite !E by reflexivity.
Qed.

Lemma allowed_run w txs h g :
  FHE.allowed (acl w) h g -> FHE.allowed (acl (run w txs)) h g.
Proof.
  revert w. induction txs as [| tx txs IH]; intros w A; cbn [run fold_left]; auto.
  apply IH, allowed_step, A.
Qed.

(** The hole card of a hand just started. *)
Lemma hidden_start s encDeck att bet betProof wager w gid w1 :
  world_inv w ->
  startGame s encDeck att bet betProof wager w = Ok (gid, w1) ->
  (forall i, 0 <= i < 52 -> i <> 3 -> inputCard encDeck i <> inputCard encDeck 3) ->
  (forall id i, exists_ (games w id) = true ->
                nth_error (deck (games w id)) i <> Some (inputCard encDeck 3)) ->
  dealerHoleCard (games w1 gid) = inputCard encDeck 3 /\
  exclusive w1 gid (inputCard encDeck 3) /\
  forall g, discloses g = true ->
            FHE.allowed (acl w1) (inputCard encDeck 3) g ->
            FHE.allowed (acl w) (inputCard encDeck 3) g.
Proof.
  intros I S Dup Old. unfold startGame in S. inv_bind S. tidy. phase_facts. fields.
  rewrite write_game_same. fields. split; [reflexivity |]. split.
  - intros id i. fields. unfold write_game.
    destruct (Z.eqb_spec id (nextGameId w)) as [-> |]; fields.
    + intros _ N. split; [reflexivity |].
      destruct (Nat.eq_dec i 3) as [-> |]; [reflexivity | exfalso].
      assert (L : (i < 52)%nat).
      { rewrite <- (loadedDeck_length encDeck). apply nth_error_Some.
        rewrite N. discriminate. }
      rewrite (nth_error_nth' _ FHE.HNull) in N by (rewrite loadedDeck_length; exact L).
      rewrite loadedDeck_nth in N by exact L.
      apply (Dup (Z.of_nat i)); [lia | lia | congruence].
    + intros X N. now elim (Old id i X).
  - intros g D A. grants A;
      try (apply pair_equal_spec in A as [A <-]; try discriminate D).
    all: try (exfalso;
              match type of A with
              | inputCard _ ?i = _ => apply (Dup i); [lia | lia | exact A]
              end).
    all: try (unfold calculateBlackjackSum, FHE.select, inputCard in A; discriminate A).
    match goal with G : forall h g, In (h, g) ?l -> _ |- _ =>
      apply G in A as [-> | A]; [discriminate D |] end.
    grants A; [apply pair_equal_spec in A as [_ <-]; discriminate D | exact A].
Qed.

(** Where no ciphertext is submitted twice the hole card does stay hidden.
    Grants are never withdrawn, so the disclosure level of a ciphertext
    never decreases.  In a reachable state, for a started hand whose
    hole-card ciphertext is stored at no other card position of any hand, no
    sequence of calls changes the hole card or its disclosure level for any
    account, unless the sequence contains [endGame] on that hand or a
    [startGame] that submits the same ciphertext again.  A [startGame] on a
    deck whose position 3 differs from every other position and from every
    card already stored leaves the hole card at the disclosure level the
    ciphertext had before, and so do the calls that follow, with the same
    two exceptions. *)
Theorem hole_card_disclosure :
  (forall w tx h g,
      FHE.allowed (acl w) h g -> FHE.allowed (acl (step w tx)) h g) /\
  (forall w tx owner h,
      rank (disclosure (acl w) owner h) <= rank (disclosure (acl (step w tx)) owner h)) /\
  (forall w gid txs owner,
      reachable w ->
      exists_ (games w gid) = true ->
      exclusive w gid (dealerHoleCard (games w gid)) ->
      Forall (fun tx => keeps_hidden gid (dealerHoleCard (games w gid)) (snd tx)) txs ->
      dealerHoleCard (games (run w txs) gid) = dealerHoleCard (games w gid) /\
      disclosure (acl (run w txs)) owner (dealerHoleCard (games w gid)) =
      disclosure (acl w) owner (dealerHoleCard (games w gid))) /\
  (forall w s encDeck attestation encryptedBet betProof plainBet gid w1,
      reachable w ->
      startGame s encDeck attestation encryptedBet betProof plainBet w = Ok (gid, w1) ->
      (forall i, 0 <= i < 52 -> i <> 3 -> inputCard encDeck i <> inputCard encDeck 3) ->
      (forall id i, exists_ (games w id) = true ->
                    nth_error (deck (games w id)) i <> Some (inputCard encDeck 3)) ->
      dealerHoleCard (games w1 gid) = inputCard encDeck 3 /\
      forall txs owner,
        Forall (fun tx => keeps_hidden gid (inputCard encDeck 3) (snd tx)) txs ->
        disclosure (acl (run w1 txs)) owner (inputCard encDeck 3) =
        disclosure (acl w) owner (inputCard encDeck 3)).
Proof.
  split; [exact allowed_step |]. split; [exact disclosure_step |]. split.
  - intros w gid txs owner R X Ex K. apply reachable_inv in R.
    split; [apply (static_run w txs gid R X) |].
    apply disclosure_hidden.
    + intros g D. now apply hidden_run.
    + intros g. apply allowed_run.
  - intros w s encDeck attestation encryptedBet betProof plainBet gid w1 R S Dup Old.
    apply reachable_inv in R.
    pose proof (startGame_inv _ _ _ _ _ _ _ _ _ R S) as I1.
    pose proof (startGame_Ok _ _ _ _ _ _ _ _ _ S) as St.
    destruct (hidden_start _ _ _ _ _ _ _ _ _ R S Dup Old) as (H1 & Ex1 & Back).
    split; [exact H1 |]. intros txs owner K.
    assert (X1 : exists_ (games w1 gid) = true) by apply St.
    rewrite <- H1 in Ex1, K |- *.
    apply disclosure_hidden.
    + intros g D A. rewrite H1 in *. apply (Back g D).
      rewrite <- H1 in *. now apply (hidden_run w1 txs gid g I1 X1 Ex1 K D).
    + intros g A. apply allowed_run.
      unfold startGame in S. inv_bind S. tidy. fields.
      unfold FHE.allowed, FHE.allow, FHE.allowThis, FHE.makePubliclyDecryptable in *.
      cbn [In]. repeat right.
      match goal with M : forall x, In x _ -> In x _ |- _ => apply M end.
      now right.
Qed.

Lemma sampleDeck_distinct i :
  0 <= i < 52 -> i <> 3 -> inputCard sampleDeck i <> inputCard sampleDeck 3.
Proof. intros _ N E. unfold inputCard, sampleDeck in E. cbn in E. congruence. Qed.

Lemma hole_card_disclosure_witness :
  disclosure (acl (run dealt [(alice, Hit 1); (alice, Stand 1); (bob, DealerHit 1)]))
             alice (inputCard sampleDeck 3) = EngineOnly.
Proof.
  destruct (proj2 (proj2 (proj2 hole_card_disclosure))
              funded alice sampleDeck sampleAttestation sampleBet [sampleBet] 100
              1 dealt reachable_funded) as [_ H].
  - (vm_compute; reflexivity).
  - exact sampleDeck_distinct.
  - (intros id i X; vm_compute in X; discriminate X).
  - (rewrite H by (repeat constructor)). (vm_compute; reflexivity).
Defined.

(** *** Cards the contract has not opened *)


Lemma opened_at w id (i : nat) h :
  world_inv w ->
  exists_ (games w id) = true ->
  (i < 52)%nat ->
  h = nth i (deck (games w id)) FHE.HNull ->
  (Z.of_nat i < deckIndex (games w id) /\ i <> 3%nat) \/
  (i = 3%nat /\ phase (games w id) = Completed) ->
  opened w h.
Proof.
  intros I X L -> O. exists id, i. repeat split; auto.
  apply nth_deck; auto. now apply (inv_games _ I).
Qed.











(** C3: the contract does not keep the hole card closed until [endGame].
    The access-control list is keyed by ciphertext, and [startGame] stores
    the submitted ciphertexts without comparing them.  On a deck that
    submits the hole card's ciphertext again at position 4, the hole card is
    engine-only after [startGame]; the first [hit] then draws that
    ciphertext, and its grant on the drawn card opens the hole card to the
    player while the hand is still in the player's turn and [endGame] has not
    run. *)
Theorem hit_opens_reused_hole_card :
  reachable dealtReused /\
  phase (games dealtReused 1) = PlayerTurn /\
  player (games dealtReused 1) = alice /\
  dealerHoleCard (games dealtReused 1) = nth 4 (deck (games dealtReused 1)) FHE.HNull /\
  disclosure (acl dealtReused) alice (dealerHoleCard (games dealtReused 1)) = EngineOnly /\
  let w := step dealtReused (alice, Hit 1) in
  phase (games w 1) = PlayerTurn /\
  dealerHoleCard (games w 1) = dealerHoleCard (games dealtReused 1) /\
  FHE.allowed (acl w) (dealerHoleCard (games w 1)) (FHE.GAccount alice) /\
  disclosure (acl w) alice (dealerHoleCard (games w 1)) = OwnerDecryptable.
Proof.
  split; [apply reachable_step, reachable_funded |].
  split; [vm_compute; reflexivity |].
  split; [vm_compute; reflexivity |].
  split; [vm_compute; reflexivity |].
  split; [vm_compute; reflexivity |].
  cbv zeta. split; [vm_compute; reflexivity |].
  split; [vm_compute; reflexivity |].
  split.
  - refine (proj1 (isAllowed_iff _ _ _) _). vm_compute. reflexivity.
  - vm_compute. reflexivity.
Qed.

(** ** Buying and selling chips *)




Lemma weiFor_mul chipAmount : chipAmount * ether / CHIP_PER_ETH = chipAmount * 10 ^ 14.
Proof.
  unfold ether, CHIP_PER_ETH. change (10 ^ 18) with (10 ^ 14 * 10000).
  rewrite Z.mul_assoc. apply Z.div_mul. lia.
Qed.

(** An accepted [sellChips] takes the chips from the seller, pays 10^14 wei
    per chip out of the contract's balance and changes nothing else.  Its
    third check never fails: a positive number of chips is worth a positive
    amount, so no call is ever rejected as too small. *)
Theorem sellChips_pays :
  (forall sender chipAmount transferOk w w',
      sellChips sender chipAmount transferOk w = Ok w' ->
      0 < chipAmount <= chipBalances w sender /\
      chipAmount * 10 ^ 14 <= ethBalance w /\
      transferOk = true /\
      chipBalances w' sender = chipBalances w sender - chipAmount /\
      (forall a, a <> sender -> chipBalances w' a = chipBalances w a) /\
      ethBalance w' = ethBalance w - chipAmount * 10 ^ 14 /\
      games w' = games w /\ nextGameId w' = nextGameId w /\ acl w' = acl w) /\
  (forall sender chipAmount transferOk w,
      sellChips sender chipAmount transferOk w <> Revert "Amount too small").
Proof.
  split.
  - intros sender chipAmount transferOk w w' H. unfold sellChips in H.
    inv_bind H. tidy. phase_facts. rewrite weiFor_mul in *.
    cbn [chipBalances ethBalance games nextGameId acl]. rewrite write_balance_same.
    repeat split; auto; try lia.
    intros a N. unfold write_balance. apply Z.eqb_neq in N. now rewrite N.
  - intros sender chipAmount transferOk w. unfold sellChips, checked_mul, checked_sub.
    destruct (Z.ltb_spec 0 chipAmount) as [P |]; cbn [require bind]; [| discriminate].
    destruct (chipAmount <=? chipBalances w sender); cbn [require bind]; [| discriminate].
    destruct (chipAmount * ether <=? MAX_UINT256); cbn [bind]; [| discriminate].
    rewrite weiFor_mul.
    rewrite (proj2 (Z.ltb_lt 0 (chipAmount * 10 ^ 14))) by lia. cbn [require bind].
    destruct (chipAmount * 10 ^ 14 <=? ethBalance w); cbn [require bind]; [| discriminate].
    destruct transferOk; cbn [require bind]; discriminate.
Qed.

Lemma sellChips_pays_witness :
  exists w',
    sellChips alice 400 true funded = Ok w' /\
    chipBalances w' alice = chipBalances funded alice - 400 /\
    ethBalance w' = ethBalance funded - 400 * 10 ^ 14.
Proof.
  destruct (sellChips alice 400 true funded) as [w' | |] eqn:H;
    [| vm_compute in H; discriminate H | vm_compute in H; discriminate H].
  destruct (proj1 sellChips_pays alice 400 true funded w' H)
    as (_ & _ & _ & B & _ & E & _).
  exists w'. split; [reflexivity |]. split; [exact B | exact E].
Defined.



(** ** The phases of a hand *)

Ltac split_game gid :=
  unfold write_game;
  match goal with
  | |- context [if gid =? ?i then _ else _] =>
      destruct (Z.eqb_spec gid i) as [-> |]; fields; auto
  end.

Lemma phase_step w tx gid :
  world_inv w ->
  phase (games (step w tx) gid) = phase (games w gid) \/
  (phase (games w gid) = PlayerTurn /\
   phase (games (step w tx) gid) = DealerTurn /\
   tx = (player (games w gid), Stand gid)) \/
  (phase (games w gid) = PlayerTurn /\
   phase (games (step w tx) gid) = GameEnding /\
   tx = (player (games w gid), SetBustPhase gid)) \/
  ((phase (games w gid) = DealerTurn \/ phase (games w gid) = GameEnding) /\
   phase (games (step w tx) gid) = Completed /\
   snd tx = EndGame gid).
Proof.
  intros I. destruct tx as [s c]. unfold step. cbn [fst snd].
  destruct (exec s c w) as [w' | |] eqn:E; auto.
  exec_cases E; phase_facts; fields; auto; try split_game gid.
  - left. assert (X : exists_ (games w (nextGameId w)) = false).
    { destruct (exists_ (games w (nextGameId w))) eqn:X; auto.
      apply (inv_fresh _ I) in X. lia. }
    now rewrite (inv_unwritten _ I _ X).
  - right; left. subst. auto.
  - right; right; left. subst. auto.
  - right; right; right. auto.
  - right; right; right. auto.
Qed.

Lemma phase_rank_step w tx gid :
  world_inv w ->
  phase_rank (phase (games w gid)) <= phase_rank (phase (games (step w tx) gid)).
Proof.
  intros I.
  destruct (phase_step w tx gid I)
    as [-> | [(-> & -> & _) | [(-> & -> & _) | ([-> | ->] & -> & _)]]]; cbn; lia.
Qed.

(** A transaction changes the phase of a hand only from PlayerTurn to
    DealerTurn (the owner's [stand]), from PlayerTurn to GameEnding (the
    owner's [setBustPhase]) or from DealerTurn or GameEnding to Completed
    ([endGame], by any account); along every sequence of calls the phase
    never goes back. *)
Theorem phase_only_advances :
  (forall w tx gid, reachable w ->
      phase (games (step w tx) gid) = phase (games w gid) \/
      (phase (games w gid) = PlayerTurn /\
       phase (games (step w tx) gid) = DealerTurn /\
       tx = (player (games w gid), Stand gid)) \/
      (phase (games w gid) = PlayerTurn /\
       phase (games (step w tx) gid) = GameEnding /\
       tx = (player (games w gid), SetBustPhase gid)) \/
      ((phase (games w gid) = DealerTurn \/ phase (games w gid) = GameEnding) /\
       phase (games (step w tx) gid) = Completed /\
       snd tx = EndGame gid)) /\
  (forall w txs gid, reachable w ->
      phase_rank (phase (games w gid)) <= phase_rank (phase (games (run w txs) gid))).
Proof.
  split.
  - intros w tx gid R. apply phase_step, reachable_inv, R.
  - intros w txs gid R. apply reachable_inv in R. revert w R.
    induction txs as [| tx txs IH]; intros w I; cbn [run fold_left]; [lia |].
    pose proof (phase_rank_step w tx gid I).
    pose proof (IH (step w tx) (world_inv_step _ tx I)). unfold run in *. lia.
Qed.

Lemma phase_only_advances_witness :
  phase_rank (phase (games dealt 1))
  <= phase_rank (phase (games (run dealt [(alice, Hit 1); (alice, Stand 1)]) 1)).
Proof.
  exact (proj2 phase_only_advances dealt [(alice, Hit 1); (alice, Stand 1)] 1
               reachable_dealt).
Defined.

(** Everything [startGame] writes about the hand itself stays as written. *)
Lemma fixed_step w tx gid :
  world_inv w -> exists_ (games w gid) = true ->
  let g := games w gid in
  let g' := games (step w tx) gid in
  exists_ g' = true /\ player g' = player g /\ betAmount g' = betAmount g /\
  plainBetAmount g' = plainBetAmount g /\ deck g' = deck g /\
  playerCard1 g' = playerCard1 g /\ playerCard2 g' = playerCard2 g /\
  dealerCardUp g' = dealerCardUp g /\ dealerHoleCard g' = dealerHoleCard g.
Proof.
  intros I X. destruct tx as [s c]. unfold step. cbn [fst snd].
  destruct (exec s c w) as [w' | |] eqn:E; cbv zeta; auto 10.
  exec_cases E; phase_facts; fields; auto 10; try split_game gid; auto 10.
  apply (inv_fresh _ I) in X. lia.
Qed.

(** The owner, the encrypted and the plain wager, the deck and the four
    cards dealt at the start of a hand are the same after every sequence of
    calls, and a started hand stays started. *)
Theorem hand_is_fixed w txs gid :
  reachable w -> exists_ (games w gid) = true ->
  let g := games w gid in
  let g' := games (run w txs) gid in
  exists_ g' = true /\ player g' = player g /\ betAmount g' = betAmount g /\
  plainBetAmount g' = plainBetAmount g /\ deck g' = deck g /\
  playerCard1 g' = playerCard1 g /\ playerCard2 g' = playerCard2 g /\
  dealerCardUp g' = dealerCardUp g /\ dealerHoleCard g' = dealerHoleCard g.
Proof.
  intros R X. apply reachable_inv in R. revert w R X.
  induction txs as [| tx txs IH]; intros w I X; cbn [run fold_left]; cbv zeta;
    [auto 10 |].
  destruct (fixed_step w tx gid I X) as (X' & E1 & E2 & E3 & E4 & E5 & E6 & E7 & E8).
  destruct (IH (step w tx) (world_inv_step _ tx I) X')
    as (X'' & F1 & F2 & F3 & F4 & F5 & F6 & F7 & F8).
  unfold run in *. repeat split; congruence.
Qed.

Lemma hand_is_fixed_witness :
  deck (games (run dealt [(alice, Hit 1); (alice, Stand 1); (bob, EndGame 1)]) 1) =
  deck (games dealt 1) /\
  player (games (run dealt [(alice, Hit 1); (alice, Stand 1); (bob, EndGame 1)]) 1) =
  player (games dealt 1).
Proof.
  assert (X : exists_ (games dealt 1) = true) by (vm_compute; reflexivity).
  pose proof (hand_is_fixed dealt [(alice, Hit 1); (alice, Stand 1); (bob, EndGame 1)]
                            1 reachable_dealt X) as H.
  cbv zeta in H. destruct H as (_ & P & _ & _ & D & _).
  split; [exact D | exact P].
Defined.

Lemma ids_step w tx :
  world_inv w ->
  (forall id, 1 <= id < nextGameId w -> exists_ (games w id) = true) ->
  forall id, 1 <= id < nextGameId (step w tx) -> exists_ (games (step w tx) id) = true.
Proof.
  intros I A. destruct tx as [s c]. unfold step. cbn [fst snd].
  destruct (exec s c w) as [w' | |] eqn:E; auto.
  exec_cases E; phase_facts; fields; auto; intros id L;
    try (split_game id; fail).
  unfold write_game. destruct (Z.eqb_spec id (nextGameId w)); fields; auto.
  apply A. lia.
Qed.

Lemma ids_positive w id : reachable w -> exists_ (games w id) = true -> 1 <= id.
Proof.
  induction 1 as [| w tx R IH]; [discriminate |].
  pose proof (reachable_inv _ R) as I.
  destruct tx as [s c]. unfold step. cbn [fst snd].
  destruct (exec s c w) as [w' | |] eqn:E; auto.
  exec_cases E; phase_facts; fields; auto; try (split_game id; fail).
  unfold write_game. destruct (Z.eqb_spec id (nextGameId w)) as [-> |]; fields; auto.
  intros _. apply (inv_next _ I).
Qed.

(** Hands are numbered from 1 in the order they are started: in a
    reachable state the started hands are exactly those with a number from 1
    up to, but excluding, the counter; [startGame] gives the new hand the
    value of the counter and advances the counter by one, and no other call
    changes it. *)
Theorem hands_are_numbered :
  (forall w id, reachable w ->
      exists_ (games w id) = true <-> 1 <= id < nextGameId w) /\
  (forall w s encDeck attestation encryptedBet betProof plainBet gid w',
      startGame s encDeck attestation encryptedBet betProof plainBet w = Ok (gid, w') ->
      gid = nextGameId w /\ nextGameId w' = gid + 1) /\
  (forall w tx, reachable w ->
      nextGameId (step w tx) = nextGameId w \/
      (is_start (snd tx) = true /\ nextGameId (step w tx) = nextGameId w + 1)).
Proof.
  split; [| split].
  - intros w id R. split.
    + intros X. split; [exact (ids_positive w id R X) |].
      exact (inv_fresh _ (reachable_inv _ R) id X).
    + revert id. induction R as [| w tx R IH]; intros id L.
      * cbn in L. lia.
      * apply ids_step; auto using reachable_inv.
  - intros * H. apply startGame_Ok in H. intuition lia.
  - intros w tx R. destruct tx as [s c]. unfold step. cbn [fst snd].
    destruct (exec s c w) as [w' | |] eqn:E; auto.
    exec_cases E; phase_facts; fields; auto.
Qed.

Lemma hands_are_numbered_witness :
  exists_ (games dealt 1) = true /\ exists_ (games dealt 2) = false.
Proof.
  assert (N : nextGameId dealt = 2) by (vm_compute; reflexivity).
  split.
  - apply (proj1 hands_are_numbered dealt 1 reachable_dealt). rewrite N. lia.
  - destruct (exists_ (games dealt 2)) eqn:X; [| reflexivity].
    apply (proj1 hands_are_numbered dealt 2 reachable_dealt) in X. rewrite N in X. lia.
Defined.

(** ** The dealer's totals *)

Lemma dealer_waits_step w tx :
  world_inv w ->
  (forall id, exists_ (games w id) = true -> dealer_waits (games w id)) ->
  forall id, exists_ (games (step w tx) id) = true -> dealer_waits (games (step w tx) id).
Proof.
  intros I D. destruct tx as [s c]. unfold step. cbn [fst snd].
  destruct (exec s c w) as [w' | |] eqn:E; auto.
  exec_cases E; phase_facts; fields; auto; intros id; try split_game id;
    unfold dealer_waits; fields; intros X P;
    try (destruct P; congruence); try reflexivity.
  all: try (apply (D _ X); auto; fail).
  all: try (apply (D _ X); left; assumption).
Qed.

Lemma dealer_waits_reachable w id :
  reachable w -> exists_ (games w id) = true -> dealer_waits (games w id).
Proof.
  intros R. revert id. induction R as [| w tx R IH]; [discriminate |].
  apply dealer_waits_step; auto using reachable_inv.
Qed.

Lemma decrypt_score c :
  is_card c = true -> FHE.decrypt (getBlackjackBaseValue c) = cardScore (FHE.decrypt c).
Proof.
  intros C. apply is_card_range in C. rewrite decrypt_getBlackjackBaseValue. unfold cardScore.
  destruct ((FHE.decrypt c =? 11) || (FHE.decrypt c =? 12) || (FHE.decrypt c =? 13));
    [reflexivity |].
  apply Z.mod_small. change (2 ^ 32) with 4294967296. lia.
Qed.

Lemma score_bounds code : 0 <= code <= 255 -> 0 <= cardScore code <= 255.
Proof.
  intros B. unfold cardScore.
  destruct ((code =? 11) || (code =? 12) || (code =? 13)); lia.
Qed.

Lemma up_card_is_card g : game_inv g -> is_card (dealerCardUp g) = true.
Proof.
  intros I. apply (inv_deck_cards _ I). rewrite (inv_cardUp _ I).
  apply nth_In. rewrite (inv_deck_length _ I). lia.
Qed.

Lemma decrypt_upCardTotal c :
  is_card c = true ->
  let '(b, a, t) := addCardToSum (FHE.asEuint32 0) (FHE.asEuint32 0) c in
  FHE.decrypt b = cardScore (FHE.decrypt c) /\
  FHE.decrypt a = (if FHE.decrypt c =? 1 then 1 else 0) /\
  FHE.decrypt t = upCardTotal (FHE.decrypt c).
Proof.
  intros C. pose proof (decrypt_addCardToSum (FHE.asEuint32 0) (FHE.asEuint32 0) c) as D.
  pose proof (is_card_range _ C) as Rc. pose proof (score_bounds _ Rc) as Rs.
  destruct (addCardToSum _ _ c) as [[b a] t]. destruct D as (Db & Da & Dt).
  rewrite decrypt_score in Db by exact C.
  change (FHE.decrypt (FHE.asEuint32 0)) with 0 in *. rewrite Z.add_0_l in Db, Da.
  rewrite Z.mod_small in Db by (change (2 ^ 32) with 4294967296; lia).
  assert (Da' : FHE.decrypt a = if FHE.decrypt c =? 1 then 1 else 0)
    by (rewrite Da; destruct (FHE.decrypt c =? 1); reflexivity).
  split; [exact Db |]. split; [exact Da' |].
  rewrite Dt, Da', Db. unfold upCardTotal.
  destruct (Z.eqb_spec (FHE.decrypt c) 1) as [-> | N]; [reflexivity |].
  reflexivity.
Qed.

Lemma decrypt_twoCardTotal b a up hole :
  is_card up = true -> is_card hole = true ->
  FHE.decrypt b = cardScore (FHE.decrypt up) ->
  FHE.decrypt a = (if FHE.decrypt up =? 1 then 1 else 0) ->
  let '(_, _, t) := addCardToSum b a hole in
  FHE.decrypt t = twoCardTotal (FHE.decrypt up) (FHE.decrypt hole).
Proof.
  intros Cu Ch Eb Ea. pose proof (decrypt_addCardToSum b a hole) as D.
  pose proof (is_card_range _ Cu) as Ru. pose proof (score_bounds _ Ru) as Su.
  pose proof (is_card_range _ Ch) as Rh. pose proof (score_bounds _ Rh) as Sh.
  destruct (addCardToSum b a hole) as [[nb na] t]. destruct D as (Db & Da & Dt).
  rewrite decrypt_score in Db by exact Ch. rewrite Eb in Db. rewrite Ea in Da.
  rewrite Z.mod_small in Db by (change (2 ^ 32) with 4294967296; lia).
  rewrite Dt, Db. unfold twoCardTotal. cbv zeta.
  rewrite (Z.mod_small (cardScore (FHE.decrypt up) + cardScore (FHE.decrypt hole) + 10))
    by (change (2 ^ 32) with 4294967296; lia).
  replace (0 <? FHE.decrypt na)
    with ((FHE.decrypt up =? 1) || (FHE.decrypt hole =? 1)); [reflexivity |].
  rewrite Da. destruct (FHE.decrypt up =? 1), (FHE.decrypt hole =? 1); reflexivity.
Qed.

Lemma up_card_public w gid :
  reachable w -> exists_ (games w gid) = true ->
  FHE.allowed (acl w) (dealerCardUp (games w gid)) FHE.GPublic.
Proof.
  intros R. revert gid. induction R as [| w tx R IH]; [discriminate |].
  intros gid. pose proof (reachable_inv _ R) as I.
  pose proof (allowed_step w tx) as M. revert M.
  destruct tx as [s c]. unfold step. cbn [fst snd].
  destruct (exec s c w) as [w' | |] eqn:E; auto.
  exec_cases E; phase_facts; fields; auto; intros M; split_game gid.
  intros _. left. reflexivity.
Qed.

Lemma holeScoreFrom_total up hole :
  1 <= up <= 13 -> 1 <= hole <= 13 ->
  cardScore hole = holeScoreFrom (twoCardTotal up hole) up.
Proof.
  intros U H. unfold holeScoreFrom, twoCardTotal, cardScore.
  assert (Eu : up = 1 \/ up = 2 \/ up = 3 \/ up = 4 \/ up = 5 \/ up = 6 \/ up = 7 \/
               up = 8 \/ up = 9 \/ up = 10 \/ up = 11 \/ up = 12 \/ up = 13) by lia.
  assert (Eh : hole = 1 \/ hole = 2 \/ hole = 3 \/ hole = 4 \/ hole = 5 \/ hole = 6 \/
               hole = 7 \/ hole = 8 \/ hole = 9 \/ hole = 10 \/ hole = 11 \/ hole = 12 \/
               hole = 13) by lia.
  repeat (destruct Eu as [-> | Eu]); try subst up;
    repeat (destruct Eh as [-> | Eh]); try subst hole; reflexivity.
Qed.

(** [stand] adds the hole card to the dealer's totals and publishes the
    sum.  In a reachable state the dealer sum of a hand in the player's turn
    decrypts to the total of the up card alone; [stand] by the owner is
    accepted, moves the hand to the dealer's turn and leaves the cursor, the
    player's totals and the ledger alone; afterwards the dealer sum decrypts
    to the blackjack total of the up card and the hole card and the continue
    flag to 1 exactly when that total is below 17, and both are publicly
    decryptable.  With the up card public, the published sum gives the
    score of the hole card away: for cards with codes 1 to 13 it is
    [holeScoreFrom] of the sum and the up card's code. *)
Theorem stand_publishes_dealer_total w s gid :
  reachable w ->
  exists_ (games w gid) = true ->
  player (games w gid) = s ->
  phase (games w gid) = PlayerTurn ->
  let up := FHE.decrypt (dealerCardUp (games w gid)) in
  let hole := FHE.decrypt (dealerHoleCard (games w gid)) in
  FHE.decrypt (dealerSum (games w gid)) = upCardTotal up /\
  exists w',
    stand s gid w = Ok w' /\
    phase (games w' gid) = DealerTurn /\
    FHE.decrypt (dealerSum (games w' gid)) = twoCardTotal up hole /\
    FHE.decrypt (continueFlag (games w' gid)) = (if twoCardTotal up hole <? 17 then 1 else 0) /\
    FHE.allowed (acl w') (dealerSum (games w' gid)) FHE.GPublic /\
    FHE.allowed (acl w') (continueFlag (games w' gid)) FHE.GPublic /\
    FHE.allowed (acl w') (dealerCardUp (games w' gid)) FHE.GPublic /\
    deckIndex (games w' gid) = deckIndex (games w gid) /\
    playerSum (games w' gid) = playerSum (games w gid) /\
    bustFlag (games w' gid) = bustFlag (games w gid) /\
    chipBalances w' = chipBalances w /\
    (forall id, id <> gid -> games w' id = games w id) /\
    (1 <= up <= 13 -> 1 <= hole <= 13 ->
     FHE.decrypt (getBlackjackBaseValue (dealerHoleCard (games w gid))) =
     holeScoreFrom (FHE.decrypt (dealerSum (games w' gid))) up).
Proof.
  intros R X O P up hole. pose proof (reachable_inv _ R) as I.
  pose proof (inv_games _ I _ X) as Ig.
  pose proof (up_card_is_card _ Ig) as Cu. pose proof (hole_is_card _ Ig) as Ch.
  pose proof (dealer_waits_reachable w gid R X (or_introl P)) as W.
  pose proof (decrypt_upCardTotal _ Cu) as D1. rewrite <- W in D1.
  destruct D1 as (Db & Da & Dt).
  split; [exact Dt |].
  pose proof (decrypt_twoCardTotal _ _ _ _ Cu Ch Db Da) as D2.
  unfold stand. cbv zeta. rewrite X, O, P, Z.eqb_refl. cbn [andb Phase_eqb require bind].
  destruct (addCardToSum _ _ (dealerHoleCard (games w gid))) as [[nb na] t].
  eexists. split; [reflexivity |].
  fields. rewrite write_game_same. fields.
  split; [reflexivity |]. split; [exact D2 |]. split.
  { unfold FHE.select. cbn [FHE.decrypt]. rewrite decrypt_lt17, D2.
    fold up hole. destruct (twoCardTotal up hole <? 17); reflexivity. }
  unfold FHE.allowed, FHE.allowThis, FHE.allow, FHE.makePubliclyDecryptable. cbn [In].
  split; [tauto |]. split; [tauto |]. split.
  { repeat right. apply (up_card_public w gid R X). }
  repeat split.
  - intros id N. now apply write_game_other.
  - intros U H. rewrite D2, decrypt_score by exact Ch. now apply holeScoreFrom_total.
Qed.

Lemma stand_publishes_dealer_total_witness :
  exists w',
    stand alice 1 dealt = Ok w' /\
    FHE.decrypt (dealerSum (games dealt 1)) = 3 /\
    FHE.decrypt (dealerSum (games w' 1)) = 7 /\
    holeScoreFrom (FHE.decrypt (dealerSum (games w' 1))) 3 = 4.
Proof.
  assert (X : exists_ (games dealt 1) = true) by (vm_compute; reflexivity).
  assert (O : player (games dealt 1) = alice) by (vm_compute; reflexivity).
  assert (P : phase (games dealt 1) = PlayerTurn) by (vm_compute; reflexivity).
  pose proof (stand_publishes_dealer_total dealt alice 1 reachable_dealt X O P) as H.
  cbv zeta in H. destruct H as (U & w' & S & _ & T & _).
  assert (Eu : FHE.decrypt (dealerCardUp (games dealt 1)) = 3) by (vm_compute; reflexivity).
  assert (Eh : FHE.decrypt (dealerHoleCard (games dealt 1)) = 4) by (vm_compute; reflexivity).
  rewrite Eu in U, T. rewrite Eh in T.
  exists w'. split; [exact S |]. split; [exact U |]. split; [exact T |].
  rewrite T. reflexivity.
Defined.

Lemma endGame_winFlag gid w w' :
  endGame gid w = Ok w' ->
  FHE.decrypt (winFlag (games w' gid)) =
  (if (FHE.decrypt (playerSum (games w gid)) >? FHE.decrypt (dealerSum (games w gid)))
      || (FHE.decrypt (dealerSum (games w gid)) >? 21)
   then 1 else 0).
Proof.
  intros H. unfold endGame in H. inv_bind H. tidy.
  fields. rewrite write_game_same. fields.
  unfold FHE.select, FHE.or, FHE.gt, FHE.asEuint32. cbn [FHE.decrypt].
  change (21 mod 2 ^ 32) with 21. change (1 mod 2 ^ 32) with 1.
  change (0 mod 2 ^ 32) with 0.
  destruct (FHE.decrypt (playerSum (games w gid)) >? FHE.decrypt (dealerSum (games w gid))),
    (FHE.decrypt (dealerSum (games w gid)) >? 21); reflexivity.
Qed.

(** [setBustPhase] does not look at the bust flag: the owner of a hand in
    the player's turn can give it up whatever the flag decrypts to.  The
    dealer then never plays, and the [endGame] that follows, by any
    account, compares the player sum with the total of the dealer's up card
    alone. *)
Theorem giving_up_skips_dealer w s s' gid :
  reachable w ->
  exists_ (games w gid) = true ->
  player (games w gid) = s ->
  phase (games w gid) = PlayerTurn ->
  let up := FHE.decrypt (dealerCardUp (games w gid)) in
  let w1 := step w (s, SetBustPhase gid) in
  let w2 := step w1 (s', EndGame gid) in
  setBustPhase s gid w = Ok w1 /\
  phase (games w1 gid) = GameEnding /\
  bustFlag (games w1 gid) = bustFlag (games w gid) /\
  acl w1 = acl w /\
  endGame gid w1 = Ok w2 /\
  phase (games w2 gid) = Completed /\
  dealerSum (games w2 gid) = dealerSum (games w gid) /\
  FHE.decrypt (winFlag (games w2 gid)) =
    (if (FHE.decrypt (playerSum (games w gid)) >? upCardTotal up) || (upCardTotal up >? 21)
     then 1 else 0).
Proof.
  intros R X O P up w1 w2. pose proof (reachable_inv _ R) as I.
  pose proof (inv_games _ I _ X) as Ig.
  pose proof (up_card_is_card _ Ig) as Cu.
  pose proof (dealer_waits_reachable w gid R X (or_introl P)) as W.
  pose proof (decrypt_upCardTotal _ Cu) as D1. rewrite <- W in D1.
  destruct D1 as (_ & _ & Dt). fold up in Dt.
  pose proof (setBustPhase_total s gid w X O P) as S1.
  assert (E1 : w1 = store w gid (set_phase (games w gid) GameEnding) (acl w)).
  { unfold w1, step. cbn [fst snd exec]. now rewrite S1. }
  destruct (endGame_total gid w1) as (w2' & S2 & _ & _ & _ & _ & P2).
  { rewrite E1. fields. now rewrite write_game_same. }
  { left. rewrite E1. fields. now rewrite write_game_same. }
  assert (E2 : w2 = w2').
  { unfold w2, step. cbn [fst snd exec]. now rewrite S2. }
  rewrite <- E2 in S2, P2.
  split; [now rewrite E1 |]. split; [rewrite E1; fields; now rewrite write_game_same |].
  split; [rewrite E1; fields; now rewrite write_game_same |].
  split; [now rewrite E1 |]. split; [exact S2 |]. split; [exact P2 |].
  assert (G1 : playerSum (games w1 gid) = playerSum (games w gid) /\
               dealerSum (games w1 gid) = dealerSum (games w gid)).
  { rewrite E1. fields. now rewrite write_game_same. }
  destruct G1 as [Gp Gd]. split.
  - pose proof S2 as S2'. unfold endGame in S2'. inv_bind S2'. tidy.
    rewrite <- S2'. fields. rewrite write_game_same. fields. exact Gd.
  - rewrite (endGame_winFlag _ _ _ S2), Gp, Gd, Dt. reflexivity.
Qed.

Lemma giving_up_skips_dealer_witness :
  FHE.decrypt (bustFlag (games dealt 1)) = 0 /\
  FHE.decrypt
    (winFlag (games (step (step dealt (alice, SetBustPhase 1)) (bob, EndGame 1)) 1)) = 1.
Proof.
  split; [vm_compute; reflexivity |].
  assert (X : exists_ (games dealt 1) = true) by (vm_compute; reflexivity).
  assert (O : player (games dealt 1) = alice) by (vm_compute; reflexivity).
  assert (P : phase (games dealt 1) = PlayerTurn) by (vm_compute; reflexivity).
  pose proof (giving_up_skips_dealer dealt alice bob 1 reachable_dealt X O P) as H.
  cbv zeta in H. destruct H as (_ & _ & _ & _ & _ & _ & _ & H).
  rewrite H. vm_compute. reflexivity.
Defined.

(** ** Settling and claiming *)

(** [endGame] does not look at the bust flag.  In a reachable state a hand
    whose bust flag decrypts to 1 has a player sum above 21, so whichever
    way the hand gets to [endGame] (given up with [setBustPhase], or after
    [stand]) the win flag it computes decrypts to 1: either the dealer sum
    exceeds 21 as well, or the player sum exceeds the dealer sum. *)
Theorem busted_hand_wins w gid :
  reachable w ->
  phase (games w gid) = GameEnding \/ phase (games w gid) = DealerTurn ->
  FHE.decrypt (bustFlag (games w gid)) = 1 ->
  exists w',
    endGame gid w = Ok w' /\
    phase (games w' gid) = Completed /\
    FHE.decrypt (bustFlag (games w' gid)) = 1 /\
    FHE.decrypt (winFlag (games w' gid)) = 1.
Proof.
  intros R P B. apply reachable_inv in R.
  assert (X : exists_ (games w gid) = true).
  { apply phase_exists; auto. destruct P as [-> | ->]; discriminate. }
  pose proof (inv_bustFlag _ (inv_games _ R _ X) B) as Bust.
  destruct (endGame_total gid w X P) as (w' & E & _ & _ & _ & _ & P').
  exists w'. split; [exact E |]. split; [exact P' |]. split.
  - unfold endGame in E. inv_bind E. tidy. fields. rewrite write_game_same. fields.
    exact B.
  - rewrite (endGame_winFlag _ _ _ E).
    destruct (Z.gtb_spec (FHE.decrypt (dealerSum (games w gid))) 21);
      [now rewrite orb_true_r |].
    rewrite orb_false_r.
    destruct (Z.gtb_spec (FHE.decrypt (playerSum (games w gid)))
                         (FHE.decrypt (dealerSum (games w gid)))); [reflexivity | lia].
Qed.

Lemma busted_hand_wins_witness :
  exists w',
    endGame 1 (run busted [(alice, SetBustPhase 1)]) = Ok w' /\
    FHE.decrypt (winFlag (games w' 1)) = 1.
Proof.
  destruct (busted_hand_wins (run busted [(alice, SetBustPhase 1)]) 1)
    as (w' & E & _ & _ & W).
  - apply reachable_run. unfold busted. apply reachable_run, reachable_dealt.
  - left. vm_compute. reflexivity.
  - vm_compute. reflexivity.
  - exists w'. split; [exact E | exact W].
Defined.

(** *** Claims are taken at the caller's word *)

Lemma payoutWinner_frame s gid won w w' :
  payoutWinner s gid won w = Ok w' ->
  games w' = games w /\ nextGameId w' = nextGameId w /\
  ethBalance w' = ethBalance w /\ acl w' = acl w /\
  forall a, a <> s -> chipBalances w' a = chipBalances w a.
Proof.
  intros H. unfold payoutWinner in H. inv_bind H; tidy; phase_facts; fields; auto 10.
  repeat split. intros a N. unfold write_balance.
  apply Z.eqb_neq in N. rewrite R1. now rewrite N.
Qed.

Lemma payoutWinner_again s gid w (n : nat) :
  exists_ (games w gid) = true ->
  phase (games w gid) = Completed ->
  player (games w gid) = s ->
  0 <= chipBalances w s ->
  0 < plainBetAmount (games w gid) ->
  chipBalances w s + 2 * Z.of_nat n * plainBetAmount (games w gid) <= MAX_UINT256 ->
  let w' := run w (repeat (s, PayoutWinner gid true) n) in
  games w' = games w /\
  chipBalances w' s = chipBalances w s + 2 * Z.of_nat n * plainBetAmount (games w gid).
Proof.
  revert w. induction n as [| n IH]; intros w X P O C0 Wg M; cbv zeta.
  - cbn [repeat run fold_left]. split; [reflexivity | lia].
  - cbn [repeat run fold_left].
    destruct (payoutWinner_win s gid w X P O C0) as (w1 & H1 & B1); [nia |].
    destruct (payoutWinner_frame _ _ _ _ _ H1) as (G1 & _).
    assert (S1 : step w (s, PayoutWinner gid true) = w1).
    { unfold step. cbn [fst snd exec]. now rewrite H1. }
    rewrite S1.
    destruct (IH w1) as [G2 B2]; rewrite ?G1; auto; try lia; try nia.
    unfold run in *. rewrite G2, B2, G1, B1. split; [reflexivity | lia].
Qed.

(** [payoutWinner] takes the caller's word for the outcome and keeps no
    record of a claim.  It never changes a hand, the hand counter, the ether
    balance or a grant, and touches no balance but the caller's; so on a
    Completed hand the owner's winning claim succeeds any number of times,
    each crediting twice the wager, whatever the win flag decrypts to, as
    long as the balance stays within 256 bits. *)
Theorem payoutWinner_unchecked :
  (forall s gid won w w',
      payoutWinner s gid won w = Ok w' ->
      games w' = games w /\ nextGameId w' = nextGameId w /\
      ethBalance w' = ethBalance w /\ acl w' = acl w /\
      forall a, a <> s -> chipBalances w' a = chipBalances w a) /\
  (forall w s gid (n : nat),
      reachable w ->
      exists_ (games w gid) = true ->
      phase (games w gid) = Completed ->
      player (games w gid) = s ->
      chipBalances w s + 2 * Z.of_nat n * plainBetAmount (games w gid) <= MAX_UINT256 ->
      chipBalances (run w (repeat (s, PayoutWinner gid true) n)) s =
      chipBalances w s + 2 * Z.of_nat n * plainBetAmount (games w gid)).
Proof.
  split; [exact payoutWinner_frame |].
  intros w s gid n R X P O M. apply reachable_inv in R.
  apply payoutWinner_again; auto.
  - apply (inv_balances _ R).
  - apply (inv_wager _ (inv_games _ R _ X)).
Qed.

Lemma payoutWinner_unchecked_witness :
  FHE.decrypt (winFlag (games (run busted [(alice, SetBustPhase 1); (bob, EndGame 1)]) 1)) = 1 /\
  chipBalances (run (run busted [(alice, SetBustPhase 1); (bob, EndGame 1)])
                    (repeat (alice, PayoutWinner 1 true) 3%nat)) alice = 1500.
Proof.
  split; [vm_compute; reflexivity |].
  rewrite (proj2 payoutWinner_unchecked
                 (run busted [(alice, SetBustPhase 1); (bob, EndGame 1)]) alice 1 3%nat).
  - vm_compute. reflexivity.
  - apply reachable_run. unfold busted. apply reachable_run, reachable_dealt.
  - vm_compute. reflexivity.
  - vm_compute. reflexivity.
  - vm_compute. reflexivity.
  - vm_compute. discriminate.
Defined.

(** Chips claimed this way are backed by no ether: [unbacked] is reachable,
    Alice paid 10^17 wei for 1000 chips and holds 4000, and the contract
    cannot redeem them. *)
Theorem chips_can_exceed_ether :
  reachable unbacked /\
  chipBalances unbacked alice = 4000 /\
  ethBalance unbacked = 10 ^ 17 /\
  sellChips alice 4000 true unbacked = Revert "Casino lacks ETH" /\
  step unbacked (alice, SellChips 4000 true) = unbacked.
Proof.
  split; [apply reachable_run, reachable_funded |].
  split; [vm_compute; reflexivity |].
  split; [vm_compute; reflexivity |].
  assert (H : sellChips alice 4000 true unbacked = Revert "Casino lacks ETH")
    by (vm_compute; reflexivity).
  split; [exact H |].
  unfold step. cbn [fst snd exec]. now rewrite H.
Qed.

(** ** Starting a hand *)





(** ** The player's draw and the end of a hand *)

(** The player's draw.  In a reachable state [hit] by the owner of a hand
    in the player's turn with cards left is accepted; it draws the card at
    the cursor, replaces the player's totals by the results of
    [addCardToSum] on that card, sets the bust flag to decrypt to 1 exactly
    when the new player sum exceeds 21, lets the player decrypt the card and
    the sum and everybody the bust flag, and leaves the phase (a busted hand
    stays in the player's turn), the dealer's totals, the other hands and
    the ledger as they were. *)
Theorem hit_draws w s gid :
  reachable w ->
  exists_ (games w gid) = true ->
  player (games w gid) = s ->
  phase (games w gid) = PlayerTurn ->
  deckIndex (games w gid) < 52 ->
  exists w' c,
    hit s gid w = Ok w' /\
    nth_error (deck (games w gid)) (Z.to_nat (deckIndex (games w gid))) = Some c /\
    (playerBaseSum (games w' gid), playerAceCount (games w' gid), playerSum (games w' gid)) =
      addCardToSum (playerBaseSum (games w gid)) (playerAceCount (games w gid)) c /\
    FHE.decrypt (bustFlag (games w' gid)) =
      (if 21 <? FHE.decrypt (playerSum (games w' gid)) then 1 else 0) /\
    FHE.allowed (acl w') c (FHE.GAccount s) /\
    FHE.allowed (acl w') (playerSum (games w' gid)) (FHE.GAccount s) /\
    FHE.allowed (acl w') (bustFlag (games w' gid)) FHE.GPublic /\
    phase (games w' gid) = PlayerTurn /\
    dealerSum (games w' gid) = dealerSum (games w gid) /\
    dealerBaseSum (games w' gid) = dealerBaseSum (games w gid) /\
    dealerAceCount (games w' gid) = dealerAceCount (games w gid) /\
    chipBalances w' = chipBalances w /\
    forall id, id <> gid -> games w' id = games w id.
Proof.
  intros R X O P L. apply reachable_inv in R.
  pose proof (inv_games _ R _ X) as [Wg Ix Len Cards C1 C2 CU CH PS PB BF DS].
  destruct (index_total (deck (games w gid)) (deckIndex (games w gid))) as [c Hc];
    [lia |].
  unfold hit. cbv zeta. rewrite X, O, P, Z.eqb_refl. cbn [andb Phase_eqb require bind].
  rewrite (proj2 (Z.ltb_lt _ _) L). cbn [require bind]. rewrite Hc. cbn [bind].
  unfold checked_add.
  destruct (Z.leb_spec (deckIndex (games w gid) + 1) MAX_UINT8) as [_ | B];
    [| unfold MAX_UINT8 in B; lia].
  cbn [bind]. fields.
  destruct (addCardToSum _ _ c) as [[nb na] fs] eqn:A.
  eexists _, c. rewrite A. split; [reflexivity |].
  apply index_Ok in Hc as [_ Hc]. split; [exact Hc |].
  fields. rewrite write_game_same. fields. rewrite O.
  unfold FHE.allowed, FHE.allowThis, FHE.allow, FHE.makePubliclyDecryptable. cbn [In].
  split; [reflexivity |]. split.
  { unfold FHE.select, FHE.gt, FHE.asEuint32. cbn [FHE.decrypt].
    change (21 mod 2 ^ 32) with 21. rewrite Z.gtb_ltb.
    destruct (21 <? FHE.decrypt fs); reflexivity. }
  repeat split; auto; try tauto.
  intros id N. now apply write_game_other.
Qed.

Lemma hit_draws_witness :
  exists w' c,
    hit alice 1 dealt = Ok w' /\
    nth_error (deck (games dealt 1)) 4 = Some c /\
    FHE.decrypt (bustFlag (games w' 1)) =
      (if 21 <? FHE.decrypt (playerSum (games w' 1)) then 1 else 0).
Proof.
  assert (X : exists_ (games dealt 1) = true) by (vm_compute; reflexivity).
  assert (O : player (games dealt 1) = alice) by (vm_compute; reflexivity).
  assert (P : phase (games dealt 1) = PlayerTurn) by (vm_compute; reflexivity).
  assert (L : deckIndex (games dealt 1) < 52) by (vm_compute; reflexivity).
  destruct (hit_draws dealt alice 1 reachable_dealt X O P L)
    as (w' & c & H & N & _ & B & _).
  assert (E : deckIndex (games dealt 1) = 4) by (vm_compute; reflexivity).
  rewrite E in N.
  exists w', c. split; [exact H |]. split; [exact N | exact B].
Defined.

(** No hand gets stuck.  From every reachable state a started hand can be
    brought to Completed by at most two calls: a hand in the dealer's turn
    or given up is settled by [endGame] from any account, and a hand in the
    player's turn by its owner giving it up first. *)
Theorem every_hand_can_settle w gid :
  reachable w ->
  exists_ (games w gid) = true ->
  (forall a,
      phase (games w gid) = DealerTurn \/ phase (games w gid) = GameEnding ->
      phase (games (step w (a, EndGame gid)) gid) = Completed) /\
  (forall a,
      phase (games w gid) = PlayerTurn ->
      phase (games (run w [(player (games w gid), SetBustPhase gid); (a, EndGame gid)]) gid)
      = Completed) /\
  exists txs,
    (List.length txs <= 2)%nat /\ phase (games (run w txs) gid) = Completed.
Proof.
  intros R X.
  assert (A1 : forall a,
             phase (games w gid) = DealerTurn \/ phase (games w gid) = GameEnding ->
             phase (games (step w (a, EndGame gid)) gid) = Completed).
  { intros a P. destruct (endGame_total gid w X) as (w' & E & _ & _ & _ & _ & P');
      [tauto |].
    unfold step. cbn [fst snd exec]. now rewrite E. }
  assert (A2 : forall a,
             phase (games w gid) = PlayerTurn ->
             phase (games (run w [(player (games w gid), SetBustPhase gid);
                                  (a, EndGame gid)]) gid) = Completed).
  { intros a P.
    apply (bust_settle (player (games w gid)) a gid w X eq_refl P). }
  split; [exact A1 |]. split; [exact A2 |].
  destruct (phase (games w gid)) eqn:P.
  - exists [(player (games w gid), SetBustPhase gid); (0, EndGame gid)].
    split; [cbn; lia | now apply A2].
  - exists [(0, EndGame gid)]. split; [cbn; lia | apply A1; now left].
  - exists [(0, EndGame gid)]. split; [cbn; lia | apply A1; now right].
  - exists []. split; [cbn; lia | exact P].
Qed.

Lemma every_hand_can_settle_witness :
  exists txs, (List.length txs <= 2)%nat /\ phase (games (run dealt txs) 1) = Completed.
Proof.
  assert (X : exists_ (games dealt 1) = true) by (vm_compute; reflexivity).
  exact (proj2 (proj2 (every_hand_can_settle dealt 1 reachable_dealt X))).
Defined.

(** ** The dealer's draw in the open *)

(** The card the dealer draws is published whether or not it counts.  In a
    reachable state an accepted [dealerHit] makes the card at the cursor
    publicly decryptable, the continue flag it stores decrypts to 1 exactly
    when the dealer sum before the call was below 17, and that flag and the
    former dealer sum are publicly decryptable; when the former sum is 17 or
    more the card is published all the same although the dealer's sum
    decrypts as before.  The new dealer sum is opened to the player; the
    phase, the player's totals, the other hands and the ledger stay. *)
Theorem dealerHit_publishes_draw w gid :
  reachable w ->
  phase (games w gid) = DealerTurn ->
  deckIndex (games w gid) < 52 ->
  exists w' c,
    dealerHit gid w = Ok w' /\
    nth_error (deck (games w gid)) (Z.to_nat (deckIndex (games w gid))) = Some c /\
    FHE.allowed (acl w') c FHE.GPublic /\
    FHE.decrypt (continueFlag (games w' gid)) =
      (if FHE.decrypt (dealerSum (games w gid)) <? 17 then 1 else 0) /\
    FHE.allowed (acl w') (continueFlag (games w' gid)) FHE.GPublic /\
    FHE.allowed (acl w') (dealerSum (games w gid)) FHE.GPublic /\
    FHE.allowed (acl w') (dealerSum (games w' gid)) (FHE.GAccount (player (games w gid))) /\
    (17 <= FHE.decrypt (dealerSum (games w gid)) ->
     FHE.decrypt (dealerSum (games w' gid)) = FHE.decrypt (dealerSum (games w gid))) /\
    phase (games w' gid) = DealerTurn /\
    playerSum (games w' gid) = playerSum (games w gid) /\
    chipBalances w' = chipBalances w /\
    forall id, id <> gid -> games w' id = games w id.
Proof.
  intros Rw P L. apply reachable_inv in Rw.
  assert (E : exists_ (games w gid) = true) by (apply phase_exists; auto; congruence).
  pose proof (inv_games _ Rw _ E) as [Wg Ix Len Cards C1 C2 CU CH PS PB BF DS].
  destruct (index_total (deck (games w gid)) (deckIndex (games w gid))) as [c Hc];
    [lia |].
  unfold dealerHit. cbv zeta. rewrite E, P. cbn [andb Phase_eqb require bind].
  apply Z.ltb_lt in L as L'. rewrite L'. cbn [require bind]. fields.
  rewrite Hc. cbn [bind]. unfold checked_add.
  destruct (Z.leb_spec (deckIndex (games w gid) + 1) MAX_UINT8) as [_ | B];
    [| unfold MAX_UINT8 in B; lia].
  cbn [bind].
  destruct (addCardToSum _ _ c) as [[nb na] fs] eqn:A. fields.
  eexists _, c. split; [reflexivity |].
  apply index_Ok in Hc as [_ Hc]. split; [exact Hc |].
  fields. rewrite write_game_same. fields.
  unfold FHE.allowed, FHE.allowThis, FHE.allow, FHE.makePubliclyDecryptable. cbn [In].
  split; [tauto |]. split.
  { unfold FHE.select. cbn [FHE.decrypt]. rewrite decrypt_lt17.
    destruct (FHE.decrypt (dealerSum (games w gid)) <? 17); reflexivity. }
  split; [tauto |]. split; [tauto |]. split; [tauto |]. split.
  { intros S. unfold FHE.select. cbn [FHE.decrypt]. rewrite decrypt_lt17.
    destruct (Z.ltb_spec (FHE.decrypt (dealerSum (games w gid))) 17); [lia |].
    reflexivity. }
  repeat split; auto.
  intros id N. now apply write_game_other.
Qed.

Lemma dealerHit_publishes_draw_witness :
  exists w' c,
    dealerHit 1 dealerTurn = Ok w' /\
    nth_error (deck (games dealerTurn 1)) 5 = Some c /\
    FHE.allowed (acl w') c FHE.GPublic.
Proof.
  assert (P : phase (games dealerTurn 1) = DealerTurn) by (vm_compute; reflexivity).
  assert (L : deckIndex (games dealerTurn 1) < 52) by (vm_compute; reflexivity).
  destruct (dealerHit_publishes_draw dealerTurn 1 reachable_dealerTurn P L)
    as (w' & c & H & N & A & _).
  assert (E : deckIndex (games dealerTurn 1) = 5) by (vm_compute; reflexivity).
  rewrite E in N.
  exists w', c. split; [exact H |]. split; [exact N | exact A].
Defined.

(** ** What the page shows *)

(** The verdict shown.  While decrypting, the page shows neither outcome;
    a player sum above 21 is shown as a loss whatever the win flag and the
    dealer sum are; when the win flag is 0 or 1 the text and the colour
    agree; without a win flag they need not: a hand the text calls won on
    the sums alone is coloured as a tie. *)
Theorem verdict_shown :
  (forall r p d,
      getResultText r p d true = "Processing..."%string /\
      getStatusColor r p d true = "text-slate-400"%string) /\
  (forall r p d,
      numAbove p 21 = true ->
      getResultText r p d false = "You Lose"%string /\
      getStatusColor r p d false = "text-rose-400"%string) /\
  (forall r p d,
      r = Some 0 \/ r = Some 1 ->
      (getResultText r p d false = "You Win"%string <->
       getStatusColor r p d false = "text-emerald-400"%string) /\
      (getResultText r p d false = "You Lose"%string <->
       getStatusColor r p d false = "text-rose-400"%string)) /\
  (getResultText None (Some 20) (Some 18) false = "You Win"%string /\
   getStatusColor None (Some 20) (Some 18) false = "text-amber-400"%string).
Proof.
  split; [intros; split; reflexivity |].
  split.
  { intros r p d A. unfold getResultText, getStatusColor.
    destruct p as [p |]; [| discriminate A]. cbn [notNull andb]. rewrite A.
    split; reflexivity. }
  split; [| split; reflexivity].
  intros r p d [-> | ->]; unfold getResultText, getStatusColor;
    cbn [numIs Z.eqb];
    destruct (notNull p && numAbove p 21), (notNull d && numAbove d 21);
    (split; split; intros H; try reflexivity; discriminate H).
Qed.

Lemma verdict_shown_witness :
  getResultText (Some 1) (Some 29) (Some 3) false = "You Lose"%string /\
  getStatusColor (Some 1) (Some 29) (Some 3) false = "text-rose-400"%string.
Proof.
  apply (proj1 (proj2 verdict_shown) (Some 1) (Some 29) (Some 3)). reflexivity.
Defined.


